(** * CSV stringifier ([csv/stringify.ts]): shallow embedding and properties

    JavaScript strings are sequences of UTF-16 code units; they are modelled as
    lists of code units ([N]).  JavaScript values reaching the stringifier are
    modelled as data: [undefined], [null], booleans, numbers, strings, arrays
    and plain objects (own enumerable string-keyed properties in enumeration
    order, each key once).  The numbers are the safe integers (magnitude below
    2^53) and the three values [NaN], [Infinity] and [-Infinity].  A plain
    object inherits the members of [Object.prototype], which are built-in
    functions: reading a property reads the own property of that name and
    then the inherited member.

    Finite numbers with a fractional part, bigints, symbols, functions written
    by the user, cyclic structures, and objects with a [toJSON] method, with
    accessors or with a prototype of their own are outside the embedding.
    Exceptions are modelled by an error monad. *)

From Stdlib Require Import List ZArith NArith Bool Lia.
From Stdlib Require Import Strings.String Strings.Ascii Numbers.DecimalString.
Import ListNotations.

Set Warnings "-register-all".


(** ** Strings *)

Definition jsstring := list N.

(** A string literal of the source whose code units are all below 256. *)
Definition lit (s : string) : jsstring :=
  map N_of_ascii (list_ascii_of_string s).

Arguments lit s%_string.

Definition QUOTE : jsstring := [34%N].
Definition LF : jsstring := [10%N].
Definition CRLF : jsstring := [13%N; 10%N].
Definition BYTE_ORDER_MARK : jsstring := [65279%N].

(** [sub] is a prefix of [s]. *)
Fixpoint startsWith (s sub : jsstring) {struct sub} : bool :=
  match sub, s with
  | [], _ => true
  | _ :: _, [] => false
  | c :: sub', d :: s' => N.eqb c d && startsWith s' sub'
  end.

(** [String.prototype.includes]: [sub] occurs in [s] as a contiguous run of
    code units.  The empty string occurs in every string. *)
Fixpoint includes (s sub : jsstring) : bool :=
  startsWith s sub ||
  match s with
  | [] => false
  | _ :: s' => includes s' sub
  end.

(** [String.prototype.replaceAll] with a string pattern and a replacement text
    free of [$] patterns: occurrences are found from left to right without
    overlap; [skip] counts the code units of the current occurrence still to
    be dropped.  An empty pattern matches before every code unit and at the
    end. *)
Fixpoint replaceAll_from (pat rep : jsstring) (skip : nat) (s : jsstring)
  : jsstring :=
  match s with
  | [] => match pat, skip with [], O => rep | _, _ => [] end
  | c :: s' =>
      match skip with
      | S k => replaceAll_from pat rep k s'
      | O =>
          if startsWith s pat then
            match pat with
            | [] => rep ++ c :: replaceAll_from pat rep 0 s'
            | _ :: pat' => rep ++ replaceAll_from pat rep (List.length pat') s'
            end
          else c :: replaceAll_from pat rep 0 s'
      end
  end.

Definition replaceAll (s pat rep : jsstring) : jsstring :=
  replaceAll_from pat rep 0 s.

(** [Array.prototype.join] on an array of strings. *)
Fixpoint join (sep : jsstring) (parts : list jsstring) : jsstring :=
  match parts with
  | [] => []
  | [p] => p
  | p :: rest => p ++ sep ++ join sep rest
  end.

(** ** Values *)

(** The numbers that are not finite. *)
Inductive nonfinite : Type := NaN | PosInfinity | NegInfinity.

(** [VNum] is a safe integer, [VNonFinite] one of [NaN], [Infinity] and
    [-Infinity]; [VFunction] is the built-in function of that name. *)
Inductive jsvalue : Type :=
| VUndefined
| VNull
| VBool (b : bool)
| VNum (n : Z)
| VNonFinite (x : nonfinite)
| VStr (s : jsstring)
| VArr (items : list jsvalue)
| VObj (props : list (jsstring * jsvalue))
| VFunction (name : jsstring).

Inductive JsType :=
  TUndefined | TObject | TBoolean | TNumber | TString | TFunction.

Definition JsType_eqb (a b : JsType) : bool :=
  match a, b with
  | TUndefined, TUndefined | TObject, TObject | TBoolean, TBoolean
  | TNumber, TNumber | TString, TString | TFunction, TFunction => true
  | _, _ => false
  end.

(** The [typeof] operator; [typeof null] is ["object"]. *)
Definition typeof (v : jsvalue) : JsType :=
  match v with
  | VUndefined => TUndefined
  | VNull | VArr _ | VObj _ => TObject
  | VBool _ => TBoolean
  | VNum _ | VNonFinite _ => TNumber
  | VStr _ => TString
  | VFunction _ => TFunction
  end.

Definition isArray (v : jsvalue) : bool :=
  match v with VArr _ => true | _ => false end.

Definition is_undefined (v : jsvalue) : bool :=
  match v with VUndefined => true | _ => false end.

Definition is_null (v : jsvalue) : bool :=
  match v with VNull => true | _ => false end.

(** [Number::toString] on a safe integer (magnitude below 2^53, the integers
    [VNum] stands for): its decimal digits, with a minus sign when negative.
    Exponent notation starts at 10^21, beyond the safe integers. *)
Definition Number_toString (n : Z) : jsstring :=
  lit (NilZero.string_of_int (Z.to_int n)).

(** [Number::toString] on a number that is not finite. *)
Definition nonfinite_toString (x : nonfinite) : jsstring :=
  match x with
  | NaN => lit "NaN"
  | PosInfinity => lit "Infinity"
  | NegInfinity => lit "-Infinity"
  end.

(** [xs[i]] on an array: the element at an index within bounds, otherwise
    [undefined]. *)
Definition array_get (xs : list jsvalue) (i : Z) : jsvalue :=
  if (i <? 0)%Z then VUndefined else nth (Z.to_nat i) xs VUndefined.

Definition jsstring_eqb (a b : jsstring) : bool :=
  if list_eq_dec N.eq_dec a b then true else false.

(** The members a plain object inherits from [Object.prototype], each a
    built-in function, with the name of that function.  The accessor
    [__proto__] of Annex B is not among them: Deno deletes it from
    [Object.prototype]. *)
Definition Object_prototype_members : list (jsstring * jsstring) :=
  [ (lit "constructor", lit "Object");
    (lit "__defineGetter__", lit "__defineGetter__");
    (lit "__defineSetter__", lit "__defineSetter__");
    (lit "hasOwnProperty", lit "hasOwnProperty");
    (lit "__lookupGetter__", lit "__lookupGetter__");
    (lit "__lookupSetter__", lit "__lookupSetter__");
    (lit "isPrototypeOf", lit "isPrototypeOf");
    (lit "propertyIsEnumerable", lit "propertyIsEnumerable");
    (lit "toString", lit "toString");
    (lit "valueOf", lit "valueOf");
    (lit "toLocaleString", lit "toLocaleString") ].

(** [Object.prototype[key]]. *)
Definition Object_prototype_get (key : jsstring) : jsvalue :=
  match find (fun m => jsstring_eqb (fst m) key) Object_prototype_members with
  | Some m => VFunction (snd m)
  | None => VUndefined
  end.

(** [o[key]] on a plain object: the own property of that name, otherwise the
    member of that name inherited from [Object.prototype], otherwise
    [undefined]. *)
Fixpoint object_get (props : list (jsstring * jsvalue)) (key : jsstring) : jsvalue :=
  match props with
  | [] => Object_prototype_get key
  | (k, v) :: rest => if jsstring_eqb k key then v else object_get rest key
  end.

(** The [String] function.  An array is its elements joined by commas, with
    [undefined] and [null] elements left empty; a built-in function is
    written with its name and [[native code]] for a body. *)
Fixpoint String_ (v : jsvalue) : jsstring :=
  match v with
  | VUndefined => lit "undefined"
  | VNull => lit "null"
  | VBool true => lit "true"
  | VBool false => lit "false"
  | VNum n => Number_toString n
  | VNonFinite x => nonfinite_toString x
  | VStr s => s
  | VArr xs =>
      join (lit ",")
        (map (fun x => match x with
                       | VUndefined | VNull => []
                       | _ => String_ x
                       end) xs)
  | VObj _ => lit "[object Object]"
  | VFunction name => lit "function " ++ name ++ lit "() { [native code] }"
  end.

(** ** JSON.stringify *)

Definition hex_digit (d : N) : N :=
  if (d <? 10)%N then (48 + d)%N else (87 + d)%N.

(** [UnicodeEscape]: a backslash, [u] and four lowercase hexadecimal digits. *)
Definition UnicodeEscape (c : N) : jsstring :=
  [92; 117;
   hex_digit ((c / 4096) mod 16); hex_digit ((c / 256) mod 16);
   hex_digit ((c / 16) mod 16); hex_digit (c mod 16)]%N.

Definition is_leading_surrogate (c : N) : bool :=
  ((55296 <=? c) && (c <=? 56319))%N.

Definition is_trailing_surrogate (c : N) : bool :=
  ((56320 <=? c) && (c <=? 57343))%N.

(** One code unit that is not a surrogate, as [QuoteJSONString] writes it. *)
Definition quote_json_unit (c : N) : jsstring :=
  if (c =? 8)%N then [92; 98]%N
  else if (c =? 9)%N then [92; 116]%N
  else if (c =? 10)%N then [92; 110]%N
  else if (c =? 12)%N then [92; 102]%N
  else if (c =? 13)%N then [92; 114]%N
  else if (c =? 34)%N then [92; 34]%N
  else if (c =? 92)%N then [92; 92]%N
  else if (c <? 32)%N then UnicodeEscape c
  else [c].

(** The body of [QuoteJSONString]: a well-formed surrogate pair is copied, a
    lone surrogate is escaped. *)
Fixpoint quote_json_body (s : jsstring) : jsstring :=
  match s with
  | [] => []
  | c :: s' =>
      if is_leading_surrogate c then
        match s' with
        | d :: s'' =>
            if is_trailing_surrogate d then c :: d :: quote_json_body s''
            else UnicodeEscape c ++ quote_json_body s'
        | [] => UnicodeEscape c
        end
      else if is_trailing_surrogate c then UnicodeEscape c ++ quote_json_body s'
      else quote_json_unit c ++ quote_json_body s'
  end.

Definition QuoteJSONString (s : jsstring) : jsstring :=
  QUOTE ++ quote_json_body s ++ QUOTE.

(** [SerializeJSONProperty] without replacer or indentation: [None] stands for
    the [undefined] result, which [undefined] and a function have; a number
    that is not finite is written [null].  In an array an element without
    result is written [null]; in an object a property whose value has no
    result is left out. *)
Fixpoint SerializeJSONProperty (v : jsvalue) : option jsstring :=
  match v with
  | VUndefined => None
  | VNull => Some (lit "null")
  | VBool true => Some (lit "true")
  | VBool false => Some (lit "false")
  | VNum n => Some (Number_toString n)
  | VNonFinite _ => Some (lit "null")
  | VFunction _ => None
  | VStr s => Some (QuoteJSONString s)
  | VArr xs =>
      Some (lit "[" ++
            join (lit ",")
              (map (fun x => match SerializeJSONProperty x with
                             | Some t => t
                             | None => lit "null"
                             end) xs) ++
            lit "]")
  | VObj props =>
      Some (lit "{" ++
            join (lit ",")
              (flat_map (fun kv => match kv with
                                   | (k, x) =>
                                       match SerializeJSONProperty x with
                                       | Some t => [QuoteJSONString k ++ lit ":" ++ t]
                                       | None => []
                                       end
                                   end) props) ++
            lit "}")
  end.

Definition JSON_stringify (v : jsvalue) : option jsstring :=
  SerializeJSONProperty v.

(** ** Exceptions *)

Inductive JsError : Type :=
| TypeError (message : jsstring).

Inductive result (A : Type) : Type :=
| Ok (a : A)
| Throw (e : JsError).

Arguments Ok {A} a.
Arguments Throw {A} e.

Definition bind {A B : Type} (c : result A) (k : A -> result B) : result B :=
  match c with
  | Ok a => k a
  | Throw e => Throw e
  end.

Notation "x <- c ;; k" := (bind c (fun x => k))
  (at level 61, c at next level, right associativity).

(** ** Columns *)

(** [PropertyAccessor = number | string]: a safe integer, a number that is
    not finite, or a string. *)
Inductive PropertyAccessor : Type :=
| PNum (n : Z)
| PNonFinite (x : nonfinite)
| PStr (s : jsstring).

(** The [prop] member of [ColumnDetails]: one accessor or an array of them. *)
Inductive PropSpec : Type :=
| PropOne (p : PropertyAccessor)
| PropMany (ps : list PropertyAccessor).

Record ColumnDetails : Type := {
  cd_header : option jsstring;
  cd_prop : PropSpec
}.

(** [Column = ColumnDetails | PropertyAccessor | PropertyAccessor[]]. *)
Inductive Column : Type :=
| ColDetails (d : ColumnDetails)
| ColProp (p : PropertyAccessor)
| ColPath (ps : list PropertyAccessor).

Record NormalizedColumn : Type := {
  header : jsstring;
  prop : list PropertyAccessor
}.

Definition accessor_value (p : PropertyAccessor) : jsvalue :=
  match p with
  | PNum n => VNum n
  | PNonFinite x => VNonFinite x
  | PStr s => VStr s
  end.

(** [ps[ps.length - 1]] on an array of accessors; [undefined] when the array
    is empty. *)
Definition last_accessor (ps : list PropertyAccessor) : jsvalue :=
  array_get (map accessor_value ps) (Z.of_nat (List.length ps) - 1).

Definition normalizeColumn (column : Column) : NormalizedColumn :=
  match column with
  | ColPath ps =>
      {| header := String_ (last_accessor ps); prop := ps |}
  | ColDetails d =>
      let prop := match cd_prop d with
                  | PropMany ps => ps
                  | PropOne p => [p]
                  end in
      {| header := match cd_header d with
                   | Some h => h
                   | None => String_ (last_accessor prop)
                   end;
         prop := prop |}
  | ColProp p =>
      {| header := String_ (accessor_value p); prop := [p] |}
  end.

(** ** Escaping *)

(** The text [str] that [getEscapedString] builds from a value that is neither
    [undefined] nor [null].  On an array or a plain object of the embedding
    [JSON.stringify] always yields a string, so its [undefined] result has no
    branch of its own; it throws on a bigint or a cyclic structure and follows
    a [toJSON] method, which are all outside the embedding. *)
Definition value_text (value : jsvalue) : jsstring :=
  if JsType_eqb (typeof value) TObject then
    match JSON_stringify value with
    | Some str => str
    | None => []
    end
  else String_ value.

Definition getEscapedString (value : jsvalue) (sep : jsstring) : jsstring :=
  if is_undefined value || is_null value then []
  else
    let str := value_text value in
    if includes str sep || includes str LF || includes str QUOTE then
      QUOTE ++ replaceAll str QUOTE (QUOTE ++ QUOTE) ++ QUOTE
    else str.

(** ** Value resolution *)

Definition accessor_message : jsstring :=
  lit "Property accessor is not of type " ++ QUOTE ++ lit "number" ++ QUOTE.

Definition no_accessor_message : jsstring :=
  lit "No property accessor function was provided for object".

(** The key an accessor denotes on a plain object: a number is converted to
    its string. *)
Definition ToPropertyKey (p : PropertyAccessor) : jsstring :=
  String_ (accessor_value p).

(** [value[prop]] as the walk uses it: on an array with a number, on a plain
    object with any accessor.  An array has a property for a number only when
    the number is an index within bounds: a number that is not finite names
    none, and neither [Array.prototype] nor [Object.prototype] has a member
    named by a number. *)
Definition value_get (v : jsvalue) (p : PropertyAccessor) : jsvalue :=
  match v, p with
  | VArr xs, PNum n => array_get xs n
  | VObj props, _ => object_get props (ToPropertyKey p)
  | _, _ => VUndefined
  end.

(** The inner loop of [getValuesFromItem] over [column.prop]; [continue]
    leaves [value] as it is and goes on with the next accessor. *)
Fixpoint walk_props (value : jsvalue) (props : list PropertyAccessor)
  : result jsvalue :=
  match props with
  | [] => Ok value
  | prop :: rest =>
      if negb (JsType_eqb (typeof value) TObject) || is_null value then
        walk_props value rest
      else if isArray value then
        if JsType_eqb (typeof (accessor_value prop)) TNumber then
          walk_props (value_get value prop) rest
        else Throw (TypeError accessor_message)
      else walk_props (value_get value prop) rest
  end.

(** The outer loop of [getValuesFromItem] over the normalized columns. *)
Fixpoint walk_columns (item : jsvalue) (normalizedColumns : list NormalizedColumn)
  (values : list jsvalue) : result (list jsvalue) :=
  match normalizedColumns with
  | [] => Ok values
  | column :: rest =>
      value <- walk_props item (prop column) ;;
      walk_columns item rest (values ++ [value])
  end.

(** The elements an array spreads to. *)
Definition spread (v : jsvalue) : list jsvalue :=
  match v with
  | VArr xs => xs
  | _ => []
  end.

Definition getValuesFromItem (item : jsvalue)
  (normalizedColumns : list NormalizedColumn) : result (list jsvalue) :=
  let values := [] in
  if negb (Nat.eqb (List.length normalizedColumns) 0) then
    walk_columns item normalizedColumns values
  else if isArray item then Ok (values ++ spread item)
  else if JsType_eqb (typeof item) TObject then
    Throw (TypeError no_accessor_message)
  else Ok (values ++ [item]).

(** ** stringify *)

Record StringifyOptions : Type := {
  headers : option bool;
  separator : option jsstring;
  columns : option (list Column);
  bom : option bool
}.

Definition no_options : StringifyOptions :=
  {| headers := None; separator := None; columns := None; bom := None |}.

Definition separator_message : jsstring :=
  join LF
    [ lit "Separator cannot include the following strings:";
      lit "  - U+0022: Quotation mark (" ++ QUOTE ++ lit ")";
      lit "  - U+000D U+000A: Carriage Return + Line Feed (\r\n)" ].

Definition with_default {A : Type} (d : A) (o : option A) : A :=
  match o with
  | Some a => a
  | None => d
  end.

(** The loop of [stringify] over [data], threading [output]. *)
Fixpoint stringify_items (sep : jsstring)
  (normalizedColumns : list NormalizedColumn) (data : list jsvalue)
  (output : jsstring) : result jsstring :=
  match data with
  | [] => Ok output
  | item :: rest =>
      values <- getValuesFromItem item normalizedColumns ;;
      let output :=
        output ++ join sep (map (fun value => getEscapedString value sep) values) in
      let output := output ++ CRLF in
      stringify_items sep normalizedColumns rest output
  end.

Definition stringify (data : list jsvalue) (options : option StringifyOptions)
  : result jsstring :=
  let o := with_default no_options options in
  let headers := with_default true (headers o) in
  let sep := with_default (lit ",") (separator o) in
  let columns := with_default [] (columns o) in
  let bom := with_default false (bom o) in
  if includes sep QUOTE || includes sep CRLF then
    Throw (TypeError separator_message)
  else
    let normalizedColumns := map normalizeColumn columns in
    let output := [] in
    let output := if bom then output ++ BYTE_ORDER_MARK else output in
    let output :=
      if headers && (0 <? List.length normalizedColumns) then
        let output :=
          output ++
          join sep
            (map (fun column => getEscapedString (VStr (header column)) sep)
               normalizedColumns) in
        output ++ CRLF
      else output in
    stringify_items sep normalizedColumns data output.

(** ** The usage example of the documentation *)

Definition character (age : Z) (first last : jsstring) : jsvalue :=
  VObj [ (lit "age", VNum age);
         (lit "name", VObj [ (lit "first", VStr first);
                             (lit "last", VStr last) ]) ].

Definition example_data : list jsvalue :=
  [ character 70 (lit "Rick") (lit "Sanchez");
    character 14 (lit "Morty") (lit "Smith") ].

Definition example_columns : list Column :=
  [ ColPath [PStr (lit "name"); PStr (lit "first")];
    ColProp (PStr (lit "age")) ].

Definition example_options : StringifyOptions :=
  {| headers := None; separator := None;
     columns := Some example_columns; bom := None |}.

Definition example_output : jsstring :=
  lit "first,age" ++ CRLF ++ lit "Rick,70" ++ CRLF ++ lit "Morty,14" ++ CRLF.

(** ** Predicates used to state the properties *)

(** [undefined] or [null]. *)
Definition is_absent (v : jsvalue) : bool :=
  is_undefined v || is_null v.

(** The text of a field before quoting: empty for an absent value, otherwise
    the text [getEscapedString] builds. *)
Definition field_text (v : jsvalue) : jsstring :=
  if is_absent v then [] else value_text v.

(** A text that opens and closes with a double-quote, around some body. *)
Definition wrapped (t : jsstring) : Prop :=
  exists body, t = QUOTE ++ body ++ QUOTE.

(** Every double-quote written twice, every other code unit kept. *)
Definition double_quotes (s : jsstring) : jsstring :=
  flat_map (fun c => if N.eqb c 34 then [34%N; 34%N] else [c]) s.

(** The carriage return, U+000D. *)
Definition CR : jsstring := [13%N].

(** A separator [stringify] accepts. *)
Definition valid_separator (sep : jsstring) : bool :=
  negb (includes sep QUOTE || includes sep CRLF).


(** The accessors a column specification supplies, and its explicit header. *)
Definition column_accessors (c : Column) : list PropertyAccessor :=
  match c with
  | ColDetails d =>
      match cd_prop d with
      | PropOne p => [p]
      | PropMany ps => ps
      end
  | ColProp p => [p]
  | ColPath ps => ps
  end.

Definition explicit_header (c : Column) : option jsstring :=
  match c with
  | ColDetails d => cd_header d
  | _ => None
  end.

(** Walking [props] from a value reaches an array at a step whose accessor is
    a string. *)
Inductive accessor_mismatch : jsvalue -> list PropertyAccessor -> Prop :=
| mismatch_here xs s rest :
    accessor_mismatch (VArr xs) (PStr s :: rest)
| mismatch_index xs n rest :
    accessor_mismatch (array_get xs n) rest ->
    accessor_mismatch (VArr xs) (PNum n :: rest)
| mismatch_member props p rest :
    accessor_mismatch (object_get props (ToPropertyKey p)) rest ->
    accessor_mismatch (VObj props) (p :: rest).

(** An own property named [key]. *)
Definition has_key (props : list (jsstring * jsvalue)) (key : jsstring) : bool :=
  existsb (fun kv => jsstring_eqb (fst kv) key) props.

(** The name of a member inherited from [Object.prototype]. *)
Definition inherited_name (key : jsstring) : bool :=
  existsb (fun m => jsstring_eqb (fst m) key) Object_prototype_members.

(** An accessor that is an integer. *)
Definition integer_accessor (p : PropertyAccessor) : bool :=
  match p with
  | PNum _ => true
  | _ => false
  end.

(** ** Further predicates on the output of [stringify] *)

(** The options of a call that writes the data rows only: the same separator
    and columns, no header line, no byte-order mark. *)
Definition rows_only (o : StringifyOptions) : StringifyOptions :=
  {| headers := Some false; separator := separator o;
     columns := columns o; bom := Some false |}.

(** The line of a row of values. *)
Definition row_text (sep : jsstring) (values : list jsvalue) : jsstring :=
  join sep (map (fun value => getEscapedString value sep) values) ++ CRLF.

(** The fields of a record when there are no columns: the elements of an
    array, otherwise the record itself. *)
Definition structural_values (item : jsvalue) : list jsvalue :=
  match item with
  | VArr xs => xs
  | _ => [item]
  end.

(** A record that can be written without columns: an array, or a value that
    [typeof] does not report as an object. *)
Definition structural_record (item : jsvalue) : bool :=
  isArray item || negb (JsType_eqb (typeof item) TObject).

(** The number of double-quotes in a text. *)
Definition count_quotes (t : jsstring) : nat :=
  count_occ N.eq_dec t 34%N.

(** ** filterValues ([collections/filter_values.ts])

    A record [Record<string, T>] is the list of its own enumerable
    string-keyed properties in the order [Object.entries] yields them, each
    key once. *)

Definition PROTO : jsstring := lit "__proto__".

(** [ret[key] = value] on an ordinary data property: an own property of that
    name is overwritten where it stands, a new one is added after the
    others. *)
Fixpoint record_put {T : Type} (ret : list (jsstring * T)) (key : jsstring)
  (value : T) : list (jsstring * T) :=
  match ret with
  | [] => [(key, value)]
  | (k, v) :: rest =>
      if jsstring_eqb k key then (k, value) :: rest
      else (k, v) :: record_put rest key value
  end.

(** [ret[key] = value] on an object created by [{}].  Where
    [Object.prototype] carries the [__proto__] accessor (browsers, Node), an
    assignment to [__proto__] goes to that accessor and creates no own
    property; Deno removes the accessor, and the assignment is an ordinary
    one.  [proto_accessor] tells which host runs the code. *)
Definition record_assign {T : Type} (proto_accessor : bool)
  (ret : list (jsstring * T)) (key : jsstring) (value : T)
  : list (jsstring * T) :=
  if proto_accessor && jsstring_eqb key PROTO then ret
  else record_put ret key value.

(** The loop of [filterValues] over [entries], threading [ret]. *)
Fixpoint filterValues_loop {T : Type} (proto_accessor : bool)
  (predicate : T -> bool) (entries : list (jsstring * T))
  (ret : list (jsstring * T)) : list (jsstring * T) :=
  match entries with
  | [] => ret
  | (key, value) :: rest =>
      filterValues_loop proto_accessor predicate rest
        (if predicate value then record_assign proto_accessor ret key value
         else ret)
  end.

(** The own properties of the record [filterValues] returns. *)
Definition filterValues {T : Type} (proto_accessor : bool)
  (record : list (jsstring * T)) (predicate : T -> bool)
  : list (jsstring * T) :=
  let ret := [] in
  let entries := record in
  filterValues_loop proto_accessor predicate entries ret.

(** [record[key]] as an own property, if there is one. *)
Fixpoint record_get {T : Type} (record : list (jsstring * T)) (key : jsstring)
  : option T :=
  match record with
  | [] => None
  | (k, v) :: rest => if jsstring_eqb k key then Some v else record_get rest key
  end.

(** An entry [filterValues] keeps: its value passes the predicate, and its key
    is not one the host diverts to the [__proto__] accessor. *)
Definition kept {T : Type} (proto_accessor : bool) (predicate : T -> bool)
  (kv : jsstring * T) : bool :=
  predicate (snd kv) && negb (proto_accessor && jsstring_eqb (fst kv) PROTO).

(** The columns [0], [1], ..., [n - 1], each a bare index. *)
Definition index_columns (n : nat) : list NormalizedColumn :=
  map (fun i => normalizeColumn (ColProp (PNum (Z.of_nat i)))) (seq 0 n).

(** The record of the usage example of [filterValues]. *)
Definition people : list (jsstring * Z) :=
  [ (lit "Arnold", 37%Z); (lit "Sarah", 7%Z); (lit "Kim", 23%Z) ].

(** ** String primitives *)

Section StringFacts.

Lemma startsWith_prefix (sub s : jsstring) :
  startsWith s sub = true <-> exists post, s = sub ++ post.
Proof.
  revert s; induction sub as [|c sub IH]; intros s; simpl.
  - split; [intros _; now exists s | reflexivity].
  - destruct s as [|d s].
    + split; [discriminate | intros [post H]; discriminate].
    + rewrite andb_true_iff, N.eqb_eq, IH. split.
      * intros [-> [post ->]]. now exists post.
      * intros [post H]. injection H as -> ->. split; [reflexivity | now exists post].
Qed.

Lemma includes_occurs (s sub : jsstring) :
  includes s sub = true <-> exists pre post, s = pre ++ sub ++ post.
Proof.
  induction s as [|d s IH]; simpl.
  - rewrite orb_false_r, startsWith_prefix. split.
    + intros [post H]. now exists [], post.
    + intros [pre [post H]]. destruct pre; [now exists post | discriminate].
  - rewrite orb_true_iff, startsWith_prefix, IH. split.
    + intros [[post H] | [pre [post H]]].
      * now exists [], post.
      * exists (d :: pre), post. simpl. now rewrite H.
    + intros [[|e pre] [post H]].
      * left. now exists post.
      * right. injection H as _ H. now exists pre, post.
Qed.

Lemma includes_empty (s : jsstring) : includes s [] = true.
Proof. apply includes_occurs. now exists [], s. Qed.

Lemma includes_unit (s : jsstring) (c : N) :
  includes s [c] = true <-> In c s.
Proof.
  induction s as [|d s IH]; simpl.
  - split; [discriminate | tauto].
  - rewrite orb_true_iff, andb_true_r, N.eqb_eq, IH. intuition congruence.
Qed.

Lemma replaceAll_unit (s : jsstring) (q : N) (rep : jsstring) :
  replaceAll s [q] rep = flat_map (fun c => if N.eqb c q then rep else [c]) s.
Proof.
  unfold replaceAll. induction s as [|c s IH]; [reflexivity|].
  simpl. rewrite andb_true_r, (N.eqb_sym q c).
  destruct (N.eqb c q); simpl; now rewrite IH.
Qed.

Lemma double_quotes_free (s : jsstring) :
  includes s QUOTE = false -> double_quotes s = s.
Proof.
  intros H. assert (Hn : ~ In 34%N s).
  { intros Hin. apply includes_unit in Hin. unfold QUOTE in H. congruence. }
  clear H. induction s as [|c s IH]; [reflexivity|].
  unfold double_quotes in *. simpl.
  destruct (N.eqb_spec c 34) as [->|Hc].
  - exfalso. apply Hn. now left.
  - simpl. f_equal. apply IH. intros Hin. apply Hn. now right.
Qed.

Lemma wrapped_has_quote (t : jsstring) : wrapped t -> includes t QUOTE = true.
Proof.
  intros [body ->]. apply includes_occurs. now exists [], (body ++ QUOTE).
Qed.

End StringFacts.

(** ** Tactics *)

(** Expose the body of [stringify] with the options read and defaulted. *)
Ltac open_stringify :=
  unfold stringify; cbn [headers separator columns bom with_default].

(** Turn a hypothesis [valid_separator sep = true] into the outcome of the
    separator check. *)
Ltac valid_sep H :=
  unfold valid_separator in H; apply negb_true_iff in H.

(** ** The escaper *)

Lemma JSON_stringify_object (v : jsvalue) :
  JsType_eqb (typeof v) TObject = true -> exists str, JSON_stringify v = Some str.
Proof.
  destruct v; simpl; try discriminate; intros _; eexists; reflexivity.
Qed.

Lemma getEscapedString_cases (v : jsvalue) (sep : jsstring) :
  getEscapedString v sep =
  if is_absent v then []
  else if includes (value_text v) sep || includes (value_text v) LF
          || includes (value_text v) QUOTE
       then QUOTE ++ double_quotes (value_text v) ++ QUOTE
       else value_text v.
Proof.
  unfold getEscapedString, is_absent, double_quotes, QUOTE.
  now rewrite replaceAll_unit.
Qed.

Lemma getEscapedString_plain (s sep : jsstring) :
  includes s sep = false -> includes s LF = false -> includes s QUOTE = false ->
  getEscapedString (VStr s) sep = s.
Proof.
  intros H1 H2 H3. rewrite getEscapedString_cases. simpl.
  unfold value_text. simpl. now rewrite H1, H2, H3.
Qed.

(** C1: the usage example of the documentation.  The two characters Rick
    Sanchez (70) and Morty Smith (14), with the columns [["name","first"]] and
    ["age"] and every other option left to its default, stringify to
    [first,age CRLF Rick,70 CRLF Morty,14 CRLF]. *)
Theorem stringify_usage_example :
  stringify example_data (Some example_options) = Ok example_output.
Proof. vm_compute. reflexivity. Qed.

(** C2 (as stated) fails on an absent value with the empty separator, which
    [stringify] accepts: the field is empty and not wrapped, although the empty
    separator occurs in the text of the value, be that text taken empty or
    taken as the string conversion of [undefined]. *)
Lemma getEscapedString_absent_not_wrapped :
  valid_separator [] = true /\
  includes (field_text VUndefined) [] = true /\
  includes (String_ VUndefined) [] = true /\
  getEscapedString VUndefined [] = [] /\
  ~ (wrapped (getEscapedString VUndefined []) <->
     includes (field_text VUndefined) [] = true \/
     includes (field_text VUndefined) LF = true \/
     includes (field_text VUndefined) QUOTE = true).
Proof.
  repeat split; try reflexivity.
  intros [_ H]. destruct H as [body H]; [now left|]. discriminate.
Qed.

(** C2 (amended): an absent value ([undefined] or [null]) gives the empty
    field, never wrapped.  For every other value and every separator, the
    field is wrapped in double-quotes if and only if the text of the value
    contains the separator, a line feed or a double-quote; a wrapped field is
    the text with every double-quote doubled between two double-quotes, and a
    field that is not wrapped is the text unchanged. *)
Theorem getEscapedString_quoting (v : jsvalue) (sep : jsstring) :
  if is_absent v then
    getEscapedString v sep = [] /\ ~ wrapped (getEscapedString v sep)
  else
    (wrapped (getEscapedString v sep) <->
       includes (value_text v) sep = true \/
       includes (value_text v) LF = true \/
       includes (value_text v) QUOTE = true) /\
    getEscapedString v sep =
      if includes (value_text v) sep || includes (value_text v) LF
         || includes (value_text v) QUOTE
      then QUOTE ++ double_quotes (value_text v) ++ QUOTE
      else value_text v.
Proof.
  rewrite getEscapedString_cases. destruct (is_absent v).
  - split; [reflexivity|]. intros [body H]. discriminate.
  - split; [|reflexivity].
    destruct (includes (value_text v) sep) eqn:E1;
      destruct (includes (value_text v) LF) eqn:E2;
      destruct (includes (value_text v) QUOTE) eqn:E3; simpl;
      try (split; [intros _; auto | intros _; eexists; reflexivity]).
    split.
    + intros Hw. apply wrapped_has_quote in Hw. congruence.
    + intros [H | [H | H]]; discriminate.
Qed.

(** C9: a string that contains neither the separator, nor a line feed, nor a
    double-quote is returned unchanged by the escaper, so escaping it again
    changes nothing. *)
Theorem getEscapedString_escape_free (s sep : jsstring) :
  includes s sep = false ->
  includes s LF = false ->
  includes s QUOTE = false ->
  getEscapedString (VStr s) sep = s /\
  getEscapedString (VStr (getEscapedString (VStr s) sep)) sep =
    getEscapedString (VStr s) sep.
Proof.
  intros H1 H2 H3.
  rewrite (getEscapedString_plain _ _ H1 H2 H3). split; [reflexivity|].
  now apply getEscapedString_plain.
Qed.

Lemma getEscapedString_escape_free_witness :
  getEscapedString (VStr (lit "Rick")) (lit ",") = lit "Rick" /\
  getEscapedString (VStr (getEscapedString (VStr (lit "Rick")) (lit ","))) (lit ",") =
    getEscapedString (VStr (lit "Rick")) (lit ",").
Proof.
  apply (getEscapedString_escape_free (lit "Rick") (lit ",")); reflexivity.
Defined.

(** C10: a string with a carriage return but no line feed, no double-quote and
    no occurrence of the separator is returned by the escaper unchanged and
    unquoted, carriage return included; as the only field of a row it is
    written verbatim before the line terminator. *)
Theorem getEscapedString_carriage_return (s sep : jsstring) :
  includes s CR = true ->
  includes s LF = false ->
  includes s QUOTE = false ->
  includes s sep = false ->
  getEscapedString (VStr s) sep = s /\
  ~ wrapped (getEscapedString (VStr s) sep) /\
  includes (getEscapedString (VStr s) sep) CR = true /\
  stringify [VArr [VStr s]]
    (Some {| headers := None; separator := Some sep;
             columns := None; bom := None |}) =
    if valid_separator sep then Ok (s ++ CRLF)
    else Throw (TypeError separator_message).
Proof.
  intros Hcr Hlf Hq Hsep.
  pose proof (getEscapedString_plain _ _ Hsep Hlf Hq) as E.
  rewrite E. repeat split; trivial.
  - intros Hw. apply wrapped_has_quote in Hw. congruence.
  - unfold stringify, valid_separator. simpl.
    destruct (includes sep QUOTE || includes sep CRLF); simpl; [reflexivity|].
    now rewrite E.
Qed.

Lemma getEscapedString_carriage_return_witness :
  getEscapedString (VStr (lit "a" ++ CR ++ lit "b")) (lit ",") =
    lit "a" ++ CR ++ lit "b" /\
  stringify [VArr [VStr (lit "a" ++ CR ++ lit "b")]]
    (Some {| headers := None; separator := Some (lit ",");
             columns := None; bom := None |}) =
    Ok (lit "a" ++ CR ++ lit "b" ++ CRLF).
Proof.
  destruct (getEscapedString_carriage_return (lit "a" ++ CR ++ lit "b") (lit ","))
    as [H1 [_ [_ H2]]]; try reflexivity.
  split; [exact H1 | exact H2].
Defined.

(** ** The orchestrator *)

(** C3: when the separator of the options contains a double-quote or the
    sequence carriage return, line feed, [stringify] throws the [TypeError] of
    the separator check, whatever the data (and the other options) are. *)
Theorem stringify_invalid_separator
  (data : list jsvalue) (o : StringifyOptions) (sep : jsstring) :
  separator o = Some sep ->
  includes sep QUOTE = true \/ includes sep CRLF = true ->
  stringify data (Some o) = Throw (TypeError separator_message) /\
  forall data', stringify data' (Some o) = stringify data (Some o).
Proof.
  intros Hs Hbad.
  assert (E : includes sep QUOTE || includes sep CRLF = true).
  { apply orb_true_iff. exact Hbad. }
  unfold stringify. simpl. rewrite Hs. simpl. rewrite E.
  split; [reflexivity | intros; reflexivity].
Qed.

Lemma stringify_invalid_separator_witness :
  stringify example_data
    (Some {| headers := None; separator := Some (lit ";" ++ QUOTE);
             columns := Some example_columns; bom := None |}) =
    Throw (TypeError separator_message).
Proof.
  refine (proj1 (stringify_invalid_separator example_data
                   {| headers := None; separator := Some (lit ";" ++ QUOTE);
                      columns := Some example_columns; bom := None |}
                   (lit ";" ++ QUOTE) _ _)).
  - reflexivity.
  - left. reflexivity.
Defined.

Lemma stringify_items_prefix (sep : jsstring) (cols : list NormalizedColumn)
  (data : list jsvalue) (acc out : jsstring) :
  stringify_items sep cols data (acc ++ out) =
  (rows <- stringify_items sep cols data out ;; Ok (acc ++ rows)).
Proof.
  revert out. induction data as [|item data IH]; intros out; simpl.
  - reflexivity.
  - destruct (getValuesFromItem item cols) as [values|e]; simpl; [|reflexivity].
    rewrite <- !app_assoc. apply IH.
Qed.

Lemma stringify_items_start (sep : jsstring) (cols : list NormalizedColumn)
  (data : list jsvalue) (out : jsstring) :
  stringify_items sep cols data out =
  (rows <- stringify_items sep cols data [] ;; Ok (out ++ rows)).
Proof.
  rewrite <- (app_nil_r out) at 1. apply stringify_items_prefix.
Qed.


(** ** Column normalization *)

Lemma last_accessor_snoc (init : list PropertyAccessor) (p : PropertyAccessor) :
  last_accessor (init ++ [p]) = accessor_value p.
Proof.
  unfold last_accessor, array_get.
  rewrite length_app, map_app. simpl.
  replace (Z.of_nat (List.length init + 1) - 1)%Z
    with (Z.of_nat (List.length init)) by lia.
  destruct (Z.ltb_spec (Z.of_nat (List.length init)) 0); [lia|].
  rewrite Nat2Z.id, app_nth2; rewrite length_map; [|lia].
  now rewrite Nat.sub_diag.
Qed.

Lemma normalizeColumn_prop (c : Column) :
  prop (normalizeColumn c) = column_accessors c.
Proof. destruct c as [[h [p|ps]]|p|ps]; reflexivity. Qed.

(** C8 (as stated) fails on a column given as the empty list of accessors: its
    normalized path is empty, and its header is the text [undefined]. *)
Lemma normalizeColumn_empty_path :
  ~ (prop (normalizeColumn (ColPath [])) <> []) /\
  normalizeColumn (ColPath []) = {| header := lit "undefined"; prop := [] |}.
Proof. split; [intros H; now apply H | reflexivity]. Qed.

(** C8 (amended): for every column specification, the normalized path is the
    list of accessors the specification supplies (a bare accessor counts as a
    list of one), and the header is the explicit header whenever one is
    supplied.  When the list of accessors is not empty the path is not empty,
    and a header that is not supplied is the string form of the final
    accessor of the path. *)
Theorem normalizeColumn_invariant (c : Column) :
  prop (normalizeColumn c) = column_accessors c /\
  (forall h, explicit_header c = Some h -> header (normalizeColumn c) = h) /\
  (column_accessors c <> [] ->
   exists init p,
     prop (normalizeColumn c) = init ++ [p] /\
     header (normalizeColumn c) =
       with_default (String_ (accessor_value p)) (explicit_header c)).
Proof.
  split; [apply normalizeColumn_prop|]. split.
  - intros h Hh. destruct c as [[eh ps]|q|ps]; simpl in *; try discriminate.
    now rewrite Hh.
  - intros Hne.
    destruct (exists_last Hne) as [init [p Hp]]. exists init, p.
    rewrite normalizeColumn_prop. split; [exact Hp|].
    destruct c as [[h [q|ps]]|q|ps]; simpl in *.
    + rewrite (proj2 (app_inj_tail init [] p q (eq_sym Hp))).
      destruct h; reflexivity.
    + rewrite Hp, last_accessor_snoc. destruct h; reflexivity.
    + now rewrite (proj2 (app_inj_tail init [] p q (eq_sym Hp))).
    + now rewrite Hp, last_accessor_snoc.
Qed.

Lemma normalizeColumn_invariant_witness :
  header (normalizeColumn
            (ColDetails {| cd_header := Some (lit "language 1");
                           cd_prop := PropMany [PStr (lit "runsOn"); PNum 0] |})) =
    lit "language 1" /\
  exists init p,
    prop (normalizeColumn (ColPath [PStr (lit "a"); PStr (lit "b")])) = init ++ [p] /\
    header (normalizeColumn (ColPath [PStr (lit "a"); PStr (lit "b")])) =
      with_default (String_ (accessor_value p)) None.
Proof.
  split.
  - refine (proj1 (proj2 (normalizeColumn_invariant
                            (ColDetails {| cd_header := Some (lit "language 1");
                                           cd_prop := PropMany [PStr (lit "runsOn"); PNum 0] |})))
              (lit "language 1") _).
    reflexivity.
  - refine (proj2 (proj2 (normalizeColumn_invariant
                            (ColPath [PStr (lit "a"); PStr (lit "b")]))) _).
    discriminate.
Defined.

(** ** Value resolution *)

Lemma walk_props_skip (v : jsvalue) (props : list PropertyAccessor) :
  negb (JsType_eqb (typeof v) TObject) || is_null v = true ->
  walk_props v props = Ok v.
Proof.
  intros H. induction props as [|p props IH]; simpl; [reflexivity|].
  now rewrite H.
Qed.

Lemma walk_props_app (v : jsvalue) (p1 p2 : list PropertyAccessor) :
  walk_props v (p1 ++ p2) = (v' <- walk_props v p1 ;; walk_props v' p2).
Proof.
  revert v. induction p1 as [|p p1 IH]; intros v; simpl; [reflexivity|].
  destruct (negb (JsType_eqb (typeof v) TObject) || is_null v); [apply IH|].
  destruct (isArray v); [destruct p|]; try apply IH. reflexivity.
Qed.

Lemma find_none_existsb {A : Type} (f : A -> bool) (l : list A) :
  existsb f l = false -> find f l = None.
Proof.
  induction l as [|x l IH]; simpl; [reflexivity|].
  destruct (f x); simpl; [discriminate | exact IH].
Qed.

Lemma Object_prototype_get_other (key : jsstring) :
  inherited_name key = false -> Object_prototype_get key = VUndefined.
Proof.
  intros H. unfold Object_prototype_get.
  now rewrite (find_none_existsb _ _ H).
Qed.

Lemma object_get_inherited (props : list (jsstring * jsvalue)) (key : jsstring) :
  has_key props key = false -> object_get props key = Object_prototype_get key.
Proof.
  induction props as [|[k x] props IH]; simpl; [reflexivity|].
  destruct (jsstring_eqb k key); simpl; [discriminate | exact IH].
Qed.

Lemma object_get_absent (props : list (jsstring * jsvalue)) (key : jsstring) :
  has_key props key = false -> inherited_name key = false ->
  object_get props key = VUndefined.
Proof.
  intros Hown Hinh. rewrite (object_get_inherited _ _ Hown).
  now apply Object_prototype_get_other.
Qed.

Lemma array_get_outside (xs : list jsvalue) (n : Z) :
  (n < 0 \/ Z.of_nat (List.length xs) <= n)%Z -> array_get xs n = VUndefined.
Proof.
  intros H. unfold array_get.
  destruct (Z.ltb_spec n 0); [reflexivity|].
  apply nth_overflow. lia.
Qed.

Lemma escaped_absent_empty (v : jsvalue) (sep : jsstring) :
  is_absent v = true -> getEscapedString v sep = [].
Proof. intros H. rewrite getEscapedString_cases. now rewrite H. Qed.

Lemma getValuesFromItem_columns_def (item : jsvalue) (c : NormalizedColumn)
  (cols : list NormalizedColumn) :
  getValuesFromItem item (c :: cols) = walk_columns item (c :: cols) [].
Proof. reflexivity. Qed.

Lemma walk_columns_absent (item : jsvalue) (sep : jsstring)
  (cols : list NormalizedColumn) (values : list jsvalue) :
  (forall c, In c cols ->
     exists v, walk_props item (prop c) = Ok v /\ is_absent v = true) ->
  exists vs,
    walk_columns item cols values = Ok (values ++ vs) /\
    map (fun value => getEscapedString value sep) vs = map (fun _ => []) cols.
Proof.
  revert values. induction cols as [|c cols IH]; intros values H.
  - exists []. split; [simpl; now rewrite app_nil_r | reflexivity].
  - destruct (H c (or_introl eq_refl)) as [v [Hv Ha]].
    destruct (IH (values ++ [v]) (fun c' Hc' => H c' (or_intror Hc')))
      as [vs [Hvs Hmap]].
    exists (v :: vs). split.
    + simpl. rewrite Hv. simpl. rewrite Hvs. now rewrite <- app_assoc.
    + simpl. now rewrite (escaped_absent_empty v sep Ha), Hmap.
Qed.

(** C5 (as stated) fails on a key the Mapping lacks but every object inherits
    from [Object.prototype]: for the record [{a: 1}] the column [toString]
    resolves to the built-in function, and the field is its text, not the
    empty field. *)
Lemma walk_props_inherited_member :
  has_key [(lit "a", VNum 1)] (lit "toString") = false /\
  walk_props (VObj [(lit "a", VNum 1)]) [PStr (lit "toString")] =
    Ok (VFunction (lit "toString")) /\
  stringify [VObj [(lit "a", VNum 1)]]
    (Some {| headers := Some false; separator := None;
             columns := Some [ColProp (PStr (lit "toString"))];
             bom := None |}) =
    Ok (lit "function toString() { [native code] }" ++ CRLF) /\
  stringify [VObj [(lit "a", VNum 1)]]
    (Some {| headers := Some false; separator := None;
             columns := Some [ColProp (PStr (lit "toString"))];
             bom := None |}) <> Ok CRLF.
Proof.
  split; [reflexivity|]. split; [reflexivity|].
  split; [vm_compute; reflexivity | vm_compute; discriminate].
Qed.

(** C5 (amended): value resolution walks the path in order (walking a path is
    walking its first part and then, from the value reached, the rest).  On a
    value that is not an object, or is [null], every remaining step leaves the
    value as it is and nothing is thrown.  A key the Mapping lacks and that
    names no member inherited from [Object.prototype] (nor [__proto__], which
    hosts other than Deno inherit too), an index outside the Sequence and a
    number that is not finite yield [undefined] without an error.  A record
    whose columns all resolve to [undefined] or [null] is written as a line
    of empty fields, one per column. *)
Theorem walk_props_silent :
  (forall v p1 p2,
     walk_props v (p1 ++ p2) = (v' <- walk_props v p1 ;; walk_props v' p2)) /\
  (forall v props,
     negb (JsType_eqb (typeof v) TObject) || is_null v = true ->
     walk_props v props = Ok v) /\
  (forall props p rest,
     has_key props (ToPropertyKey p) = false ->
     inherited_name (ToPropertyKey p) = false ->
     ToPropertyKey p <> PROTO ->
     walk_props (VObj props) (p :: rest) = Ok VUndefined) /\
  (forall xs n rest,
     (n < 0 \/ Z.of_nat (List.length xs) <= n)%Z ->
     walk_props (VArr xs) (PNum n :: rest) = Ok VUndefined) /\
  (forall xs x rest,
     walk_props (VArr xs) (PNonFinite x :: rest) = Ok VUndefined) /\
  (forall v sep, is_absent v = true -> getEscapedString v sep = []) /\
  (forall item cols sep,
     valid_separator sep = true ->
     cols <> [] ->
     (forall c, In c cols ->
        exists v, walk_props item (prop (normalizeColumn c)) = Ok v /\
                  is_absent v = true) ->
     stringify [item]
       (Some {| headers := Some false; separator := Some sep;
                columns := Some cols; bom := None |}) =
       Ok (join sep (map (fun _ => []) cols) ++ CRLF)).
Proof.
  split; [exact walk_props_app|].
  split; [exact walk_props_skip|].
  split; [|split; [|split; [|split; [exact escaped_absent_empty|]]]].
  - intros props p rest Hown Hinh _. simpl.
    rewrite (object_get_absent _ _ Hown Hinh).
    now apply walk_props_skip.
  - intros xs n rest H. simpl. rewrite (array_get_outside _ _ H).
    now apply walk_props_skip.
  - intros xs x rest. simpl. now apply walk_props_skip.
  - intros item cols sep Hsep Hne Hall.
    valid_sep Hsep. open_stringify.
    rewrite Hsep. cbn [andb stringify_items].
    destruct (walk_columns_absent item sep (map normalizeColumn cols) [])
      as [vs [Hvs Hmap]].
    { intros nc Hnc. apply in_map_iff in Hnc. destruct Hnc as [c [<- Hc]].
      now apply Hall. }
    destruct cols as [|c cols]; [congruence|].
    cbn [map] in *. rewrite getValuesFromItem_columns_def, Hvs.
    cbn [bind app]. rewrite Hmap. now rewrite map_map.
Qed.

Lemma walk_props_silent_witness :
  walk_props (VNum 7) [PStr (lit "a"); PNum 0] = Ok (VNum 7) /\
  walk_props (VObj [(lit "a", VNum 1)]) [PStr (lit "b"); PStr (lit "c")] =
    Ok VUndefined /\
  walk_props (VArr [VNum 1]) [PNum 3; PStr (lit "c")] = Ok VUndefined /\
  stringify [VObj [(lit "a", VNum 1); (lit "n", VNull)]]
    (Some {| headers := Some false; separator := Some (lit ",");
             columns := Some [ColProp (PStr (lit "b"));
                              ColPath [PStr (lit "n"); PNum 0]];
             bom := None |}) =
    Ok (lit "," ++ CRLF).
Proof.
  destruct walk_props_silent as [_ [H2 [H3 [H4 [_ [_ H7]]]]]].
  split; [apply H2; reflexivity|].
  split; [apply H3; [reflexivity | reflexivity | discriminate]|].
  split; [apply H4; right; simpl; lia|].
  apply (H7 (VObj [(lit "a", VNum 1); (lit "n", VNull)])
            [ColProp (PStr (lit "b")); ColPath [PStr (lit "n"); PNum 0]]
            (lit ",")).
  - reflexivity.
  - discriminate.
  - intros c [<- | [<- | []]].
    + exists VUndefined. split; reflexivity.
    + exists VNull. split; reflexivity.
Defined.

(** ** Errors raised while the records are processed *)

Section FirstError.

Variables (sep : jsstring) (cols : list NormalizedColumn) (E : JsError).

(** Every record that fails, fails with [E]. *)
Hypothesis only_E :
  forall item e, getValuesFromItem item cols = Throw e -> e = E.

Lemma stringify_items_throws (data : list jsvalue) (out : jsstring) :
  (exists item, In item data /\ getValuesFromItem item cols = Throw E) ->
  stringify_items sep cols data out = Throw E.
Proof.
  revert out. induction data as [|d data IH]; intros out [item [Hin Hthrow]].
  - destruct Hin.
  - simpl. destruct (getValuesFromItem d cols) as [values|e] eqn:Hd; simpl.
    + apply IH. exists item. split; [|exact Hthrow].
      destruct Hin as [->|Hin]; [congruence | exact Hin].
    + now rewrite (only_E d e Hd).
Qed.

End FirstError.

Lemma walk_props_mismatch (v : jsvalue) (props : list PropertyAccessor) :
  accessor_mismatch v props ->
  walk_props v props = Throw (TypeError accessor_message).
Proof.
  induction 1 as [xs s rest | xs n rest _ IH | ps p rest _ IH]; simpl;
    try exact IH; try reflexivity.
Qed.

Lemma walk_props_error (v : jsvalue) (props : list PropertyAccessor) (e : JsError) :
  walk_props v props = Throw e -> e = TypeError accessor_message.
Proof.
  revert v. induction props as [|p props IH]; intros v; simpl; [discriminate|].
  destruct (negb (JsType_eqb (typeof v) TObject) || is_null v); [apply IH|].
  destruct (isArray v); [destruct p; simpl|]; try apply IH. congruence.
Qed.

Lemma walk_columns_error (item : jsvalue) (cols : list NormalizedColumn)
  (values : list jsvalue) (e : JsError) :
  walk_columns item cols values = Throw e -> e = TypeError accessor_message.
Proof.
  revert values. induction cols as [|c cols IH]; intros values; simpl;
    [discriminate|].
  destruct (walk_props item (prop c)) as [v|e'] eqn:Hc; simpl.
  - apply IH.
  - intros H. injection H as <-. exact (walk_props_error _ _ _ Hc).
Qed.

Lemma walk_columns_mismatch (item : jsvalue) (cols : list NormalizedColumn)
  (values : list jsvalue) (c : NormalizedColumn) :
  In c cols ->
  accessor_mismatch item (prop c) ->
  walk_columns item cols values = Throw (TypeError accessor_message).
Proof.
  intros Hin Hm. apply walk_props_mismatch in Hm.
  revert values. induction cols as [|c' cols IH]; intros values;
    [destruct Hin|].
  simpl. destruct (walk_props item (prop c')) as [v|e] eqn:Hc; simpl.
  - destruct Hin as [->|Hin]; [congruence | now apply IH].
  - now rewrite (walk_props_error _ _ _ Hc).
Qed.

Lemma getValuesFromItem_columns (item : jsvalue) (c : NormalizedColumn)
  (cols : list NormalizedColumn) :
  getValuesFromItem item (c :: cols) = walk_columns item (c :: cols) [].
Proof. reflexivity. Qed.

(** C6 (as stated) fails on an accessor that is a number but not an integer:
    [NaN] passes the test [typeof prop === "number"], indexes the array
    without an error and resolves to [undefined]; the call returns the header
    line and a line with one empty field. *)
Lemma stringify_nonfinite_accessor :
  integer_accessor (PNonFinite NaN) = false /\
  typeof (accessor_value (PNonFinite NaN)) = TNumber /\
  walk_props (VArr [VNum 1; VNum 2]) [PNonFinite NaN] = Ok VUndefined /\
  stringify [VArr [VNum 1; VNum 2]]
    (Some {| headers := None; separator := None;
             columns := Some [ColProp (PNonFinite NaN)]; bom := None |}) =
    Ok (lit "NaN" ++ CRLF ++ CRLF).
Proof. repeat split; vm_compute; reflexivity. Qed.

(** C6 (amended): when some record of the data and some column of the options
    are such that walking the column's path from the record reaches an array
    at a step whose accessor is not a number (a string), [stringify] returns
    no output: it throws a [TypeError], the one of the accessor check when the
    separator is valid (the one of the separator check otherwise). *)
Theorem stringify_accessor_mismatch
  (data : list jsvalue) (o : StringifyOptions) (item : jsvalue) (c : Column) :
  In item data ->
  In c (with_default [] (columns o)) ->
  accessor_mismatch item (prop (normalizeColumn c)) ->
  stringify data (Some o) =
    Throw (TypeError
             (if valid_separator (with_default (lit ",") (separator o))
              then accessor_message else separator_message)).
Proof.
  intros Hitem Hc Hm. open_stringify. unfold valid_separator.
  set (sep := with_default (lit ",") (separator o)).
  destruct (includes sep QUOTE || includes sep CRLF); [reflexivity|].
  cbn [negb].
  assert (Hin : In (normalizeColumn c)
                   (map normalizeColumn (with_default [] (columns o))))
    by now apply in_map.
  destruct (map normalizeColumn (with_default [] (columns o))) as [|c0 cols];
    [destruct Hin|].
  apply stringify_items_throws.
  - intros it e. rewrite getValuesFromItem_columns. apply walk_columns_error.
  - exists item. split; [exact Hitem|].
    rewrite getValuesFromItem_columns.
    now apply walk_columns_mismatch with (c := normalizeColumn c).
Qed.

Lemma stringify_accessor_mismatch_witness :
  stringify
    [ VObj [(lit "name", VStr (lit "Deno"));
            (lit "runsOn", VArr [VStr (lit "Rust"); VStr (lit "TypeScript")])] ]
    (Some {| headers := None; separator := None;
             columns := Some [ ColProp (PStr (lit "name"));
                               ColPath [PStr (lit "runsOn"); PStr (lit "first")] ];
             bom := None |}) =
    Throw (TypeError accessor_message).
Proof.
  refine (stringify_accessor_mismatch _ _
            (VObj [(lit "name", VStr (lit "Deno"));
                   (lit "runsOn", VArr [VStr (lit "Rust"); VStr (lit "TypeScript")])])
            (ColPath [PStr (lit "runsOn"); PStr (lit "first")]) _ _ _).
  - left. reflexivity.
  - right. left. reflexivity.
  - apply mismatch_member. apply mismatch_here.
Defined.

(** ** Records without column specifications *)

Lemma no_columns_error_message (item : jsvalue) (e : JsError) :
  getValuesFromItem item [] = Throw e -> e = TypeError no_accessor_message.
Proof.
  unfold getValuesFromItem. simpl.
  destruct (isArray item); [discriminate|].
  destruct (JsType_eqb (typeof item) TObject); congruence.
Qed.

(** C7 (as stated) fails on the record [null]: it is neither an array nor a
    plain object, yet [typeof] reports it as an object and the call throws the
    missing-accessor error instead of writing a row of one field. *)
Lemma getValuesFromItem_null_record :
  isArray VNull = false /\
  (forall props, VNull <> VObj props) /\
  getValuesFromItem VNull [] <> Ok [VNull] /\
  stringify [VNull] None = Throw (TypeError no_accessor_message).
Proof.
  split; [reflexivity|]. split; [discriminate|].
  split; [discriminate | reflexivity].
Qed.

(** C7 (amended): without column specifications, a Sequence record gives its
    elements as the fields of the row, in order; a Mapping record makes the
    call fail with the missing-accessor [TypeError], whatever the records
    around it are; every scalar record other than [null] ([undefined], a
    boolean, a number, a string) is a row of one field. *)
Theorem getValuesFromItem_no_columns :
  (forall xs, getValuesFromItem (VArr xs) [] = Ok xs) /\
  (forall props,
     getValuesFromItem (VObj props) [] = Throw (TypeError no_accessor_message)) /\
  (forall item,
     JsType_eqb (typeof item) TObject = false ->
     getValuesFromItem item [] = Ok [item]) /\
  (forall data o props,
     with_default [] (columns o) = [] ->
     valid_separator (with_default (lit ",") (separator o)) = true ->
     In (VObj props) data ->
     stringify data (Some o) = Throw (TypeError no_accessor_message)) /\
  (forall item sep,
     valid_separator sep = true ->
     stringify [item]
       (Some {| headers := None; separator := Some sep;
                columns := None; bom := None |}) =
     (values <- getValuesFromItem item [] ;;
      Ok (join sep (map (fun v => getEscapedString v sep) values) ++ CRLF))).
Proof.
  split; [reflexivity|]. split; [reflexivity|].
  split; [|split].
  - intros item H. unfold getValuesFromItem. simpl. rewrite H.
    destruct item; try reflexivity; discriminate.
  - intros data o props Hcols Hsep Hin.
    valid_sep Hsep. open_stringify.
    rewrite Hsep, Hcols. cbn [map].
    apply stringify_items_throws.
    + exact no_columns_error_message.
    + exists (VObj props). split; [exact Hin | reflexivity].
  - intros item sep Hsep.
    valid_sep Hsep. open_stringify.
    rewrite Hsep. cbn [map andb List.length Nat.ltb Nat.leb stringify_items].
    destruct (getValuesFromItem item []); reflexivity.
Qed.

Lemma getValuesFromItem_no_columns_witness :
  getValuesFromItem (VNum 3) [] = Ok [VNum 3] /\
  stringify [VArr [VNum 1]; VObj [(lit "a", VNum 1)]]
    (Some no_options) = Throw (TypeError no_accessor_message) /\
  stringify [VArr [VStr (lit "a"); VStr (lit "b,c")]]
    (Some {| headers := None; separator := Some (lit ",");
             columns := None; bom := None |}) =
    Ok (lit "a," ++ QUOTE ++ lit "b,c" ++ QUOTE ++ CRLF).
Proof.
  destruct getValuesFromItem_no_columns as [_ [_ [H4 [H5 H6]]]].
  split; [apply H4; reflexivity|].
  split.
  - apply (H5 _ no_options [(lit "a", VNum 1)]); try reflexivity.
    right. left. reflexivity.
  - rewrite (H6 (VArr [VStr (lit "a"); VStr (lit "b,c")]) (lit ",")
               (eq_refl true)).
    reflexivity.
Defined.

(** ** Further scenarios *)

Example stringify_array_record :
  stringify [VArr [VStr (lit "a"); VStr (lit "b,c")]] None =
    Ok (lit "a," ++ QUOTE ++ lit "b,c" ++ QUOTE ++ CRLF).
Proof. reflexivity. Qed.

Example stringify_no_data : stringify [] None = Ok [].
Proof. reflexivity. Qed.

Example normalizeColumn_last_accessor :
  header (normalizeColumn (ColPath [PStr (lit "a"); PStr (lit "b")])) = lit "b".
Proof. reflexivity. Qed.

Example stringify_with_bom :
  stringify example_data
    (Some {| headers := None; separator := None;
             columns := Some example_columns; bom := Some true |}) =
    Ok (BYTE_ORDER_MARK ++ example_output).
Proof. vm_compute. reflexivity. Qed.

Example stringify_object_field :
  stringify [VArr [VObj [(lit "a", VNum 1)]; VNull; VBool true]] None =
    Ok (QUOTE ++ lit "{" ++ QUOTE ++ QUOTE ++ lit "a" ++ QUOTE ++ QUOTE ++
        lit ":1}" ++ QUOTE ++ lit ",,true" ++ CRLF).
Proof. vm_compute. reflexivity. Qed.

Example stringify_empty_separator :
  stringify [VArr [VNum 1; VUndefined; VStr []]]
    (Some {| headers := None; separator := Some [];
             columns := None; bom := None |}) =
    Ok (QUOTE ++ lit "1" ++ QUOTE ++ QUOTE ++ QUOTE ++ CRLF).
Proof. vm_compute. reflexivity. Qed.

(** ** Composition of the output *)

Lemma stringify_items_app (sep : jsstring) (cols : list NormalizedColumn)
  (d1 d2 : list jsvalue) (out : jsstring) :
  stringify_items sep cols (d1 ++ d2) out =
  (mid <- stringify_items sep cols d1 out ;; stringify_items sep cols d2 mid).
Proof.
  revert out. induction d1 as [|item d1 IH]; intros out; simpl; [reflexivity|].
  destruct (getValuesFromItem item cols) as [values|e]; simpl; [apply IH|].
  reflexivity.
Qed.

(** X1: the output for two lists of records one after the other is the output
    for the first list followed by the output for the second list written
    without header line and byte-order mark; an error in either part is the
    error of the whole call. *)
Theorem stringify_append (d1 d2 : list jsvalue) (o : StringifyOptions) :
  stringify (d1 ++ d2) (Some o) =
  (first <- stringify d1 (Some o) ;;
   second <- stringify d2 (Some (rows_only o)) ;;
   Ok (first ++ second)).
Proof.
  unfold rows_only. open_stringify.
  destruct (includes (with_default (lit ",") (separator o)) QUOTE
            || includes (with_default (lit ",") (separator o)) CRLF);
    [reflexivity|].
  cbn [andb]. rewrite stringify_items_app.
  match goal with
  | |- context [stringify_items ?sep ?cols d1 ?out] =>
      destruct (stringify_items sep cols d1 out) as [first|e]
  end; [|reflexivity].
  cbn [bind]. apply stringify_items_start.
Qed.

Lemma stringify_items_terminated (sep : jsstring) (cols : list NormalizedColumn)
  (data : list jsvalue) (out r : jsstring) :
  stringify_items sep cols data out = Ok r ->
  data <> [] \/ (exists pre, out = pre ++ CRLF) ->
  exists pre, r = pre ++ CRLF.
Proof.
  revert out. induction data as [|item data IH]; intros out; simpl.
  - intros H [Hne | Hout]; [congruence|]. now injection H as <-.
  - destruct (getValuesFromItem item cols) as [values|e]; simpl; [|discriminate].
    intros H _. apply (IH _ H). right. eexists. reflexivity.
Qed.

(** X2: when [stringify] returns an output for a non-empty list of records, or
    with a header line, the output ends with the line terminator CRLF: the
    last line is terminated like every other. *)
Theorem stringify_ends_with_CRLF
  (data : list jsvalue) (o : StringifyOptions) (out : jsstring) :
  stringify data (Some o) = Ok out ->
  data <> [] \/
  (with_default true (headers o) = true /\ with_default [] (columns o) <> []) ->
  exists pre, out = pre ++ CRLF.
Proof.
  open_stringify.
  destruct (includes (with_default (lit ",") (separator o)) QUOTE
            || includes (with_default (lit ",") (separator o)) CRLF);
    [discriminate|].
  intros H Hcase. apply (stringify_items_terminated _ _ _ _ _ H).
  destruct Hcase as [Hne | [Hh Hc]]; [now left | right].
  rewrite Hh. destruct (with_default [] (columns o)); [congruence|].
  cbn [map List.length Nat.ltb Nat.leb andb]. eexists. reflexivity.
Qed.

Lemma stringify_ends_with_CRLF_witness :
  exists pre, example_output = pre ++ CRLF.
Proof.
  refine (stringify_ends_with_CRLF example_data example_options example_output
            _ _).
  - vm_compute. reflexivity.
  - left. discriminate.
Defined.

Lemma walk_columns_length (item : jsvalue) (cols : list NormalizedColumn)
  (values vs : list jsvalue) :
  walk_columns item cols values = Ok vs ->
  List.length vs = List.length values + List.length cols.
Proof.
  revert values. induction cols as [|c cols IH]; intros values; simpl.
  - intros H. injection H as <-. lia.
  - destruct (walk_props item (prop c)) as [v|e]; simpl; [|discriminate].
    intros H. rewrite (IH _ H), length_app. simpl. lia.
Qed.

(** X3: a row has one field per normalized column; without columns it has one
    field per element of an array record and one field for any other
    record. *)
Theorem getValuesFromItem_length
  (item : jsvalue) (cols : list NormalizedColumn) (values : list jsvalue) :
  getValuesFromItem item cols = Ok values ->
  List.length values =
    match cols with
    | [] => match item with
            | VArr xs => List.length xs
            | _ => 1
            end
    | _ :: _ => List.length cols
    end.
Proof.
  destruct cols as [|c cols].
  - unfold getValuesFromItem. simpl.
    destruct item; simpl; intros H; try discriminate;
      now injection H as <-.
  - rewrite getValuesFromItem_columns. intros H.
    now rewrite (walk_columns_length _ _ _ _ H).
Qed.

Lemma getValuesFromItem_length_witness :
  getValuesFromItem (character 70 (lit "Rick") (lit "Sanchez"))
    (map normalizeColumn example_columns) = Ok [VStr (lit "Rick"); VNum 70] /\
  List.length [VStr (lit "Rick"); VNum 70] =
    List.length (map normalizeColumn example_columns).
Proof.
  split; [reflexivity|].
  exact (getValuesFromItem_length
           (character 70 (lit "Rick") (lit "Sanchez"))
           (map normalizeColumn example_columns)
           [VStr (lit "Rick"); VNum 70] eq_refl).
Defined.

(** ** When value resolution succeeds and what it throws *)

Lemma walk_props_throw_mismatch (v : jsvalue) (props : list PropertyAccessor)
  (e : JsError) :
  walk_props v props = Throw e -> accessor_mismatch v props.
Proof.
  revert v. induction props as [|p props IH]; intros v; [discriminate|].
  destruct v as [| |b|n|x|s|xs|ps|name];
    try (rewrite walk_props_skip by reflexivity; discriminate).
  - destruct p as [n|x|s]; simpl; intros H.
    + apply mismatch_index. now apply IH.
    + rewrite walk_props_skip in H by reflexivity. discriminate.
    + apply mismatch_here.
  - simpl. intros H. apply mismatch_member. now apply IH.
Qed.

Lemma walk_columns_throw (item : jsvalue) (cols : list NormalizedColumn)
  (values : list jsvalue) (e : JsError) :
  walk_columns item cols values = Throw e ->
  exists c, In c cols /\ accessor_mismatch item (prop c).
Proof.
  revert values. induction cols as [|c cols IH]; intros values; simpl;
    [discriminate|].
  destruct (walk_props item (prop c)) as [v|e'] eqn:Hc; simpl.
  - intros H. destruct (IH _ H) as [c' [Hin Hm]]. exists c'. auto.
  - intros _. exists c. split; [now left|].
    exact (walk_props_throw_mismatch _ _ _ Hc).
Qed.

(** X4: with at least one column, [getValuesFromItem] returns the values of a
    record if and only if no column's path, walked from the record, reaches
    an array at a step whose accessor is a string.  Missing keys, indices out
    of range, numbers that are not finite and paths running into scalars
    never make it fail. *)
Theorem getValuesFromItem_succeeds_iff
  (item : jsvalue) (cols : list NormalizedColumn) :
  cols <> [] ->
  (exists values, getValuesFromItem item cols = Ok values) <->
  (forall c, In c cols -> ~ accessor_mismatch item (prop c)).
Proof.
  intros Hne. destruct cols as [|c0 cs]; [congruence|].
  rewrite getValuesFromItem_columns. split.
  - intros [values Hv] c Hc Hm.
    rewrite (walk_columns_mismatch item (c0 :: cs) [] c Hc Hm) in Hv.
    discriminate.
  - intros Hno.
    destruct (walk_columns item (c0 :: cs) []) as [values|e] eqn:Hrun;
      [now exists values|].
    exfalso. destruct (walk_columns_throw _ _ _ _ Hrun) as [c [Hc Hm]].
    exact (Hno c Hc Hm).
Qed.

Lemma getValuesFromItem_succeeds_iff_witness :
  (exists values,
     getValuesFromItem (VArr [VNum 1])
       [normalizeColumn (ColPath [PNum 3; PStr (lit "a")]);
        normalizeColumn (ColProp (PNonFinite NaN))] = Ok values) <->
  (forall c,
     In c [normalizeColumn (ColPath [PNum 3; PStr (lit "a")]);
           normalizeColumn (ColProp (PNonFinite NaN))] ->
     ~ accessor_mismatch (VArr [VNum 1]) (prop c)).
Proof.
  apply (getValuesFromItem_succeeds_iff (VArr [VNum 1])
           [normalizeColumn (ColPath [PNum 3; PStr (lit "a")]);
            normalizeColumn (ColProp (PNonFinite NaN))]).
  discriminate.
Defined.

Lemma getValuesFromItem_structural (item : jsvalue) :
  getValuesFromItem item [] =
  if structural_record item then Ok (structural_values item)
  else Throw (TypeError no_accessor_message).
Proof. destruct item; reflexivity. Qed.

Lemma stringify_items_structural (sep : jsstring) (data : list jsvalue)
  (out : jsstring) :
  stringify_items sep [] data out =
  if forallb structural_record data then
    Ok (out ++ List.concat (map (fun item => row_text sep (structural_values item)) data))
  else Throw (TypeError no_accessor_message).
Proof.
  revert out. induction data as [|item data IH]; intros out.
  - simpl. now rewrite app_nil_r.
  - cbn [stringify_items forallb map List.concat].
    rewrite getValuesFromItem_structural.
    destruct (structural_record item); cbn [bind andb]; [|reflexivity].
    rewrite IH. destruct (forallb structural_record data); [|reflexivity].
    unfold row_text. now rewrite <- !app_assoc.
Qed.

(** X5: without columns, whenever [stringify] returns an output, every record
    is an array or a value [typeof] does not report as an object, and the
    output is the byte-order mark when requested, followed by one line per
    record, in order, made of the elements of an array record or of the
    scalar record itself. *)
Theorem stringify_structural
  (data : list jsvalue) (o : StringifyOptions) (out : jsstring) :
  with_default [] (columns o) = [] ->
  stringify data (Some o) = Ok out ->
  forallb structural_record data = true /\
  out =
    (if with_default false (bom o) then BYTE_ORDER_MARK else []) ++
    List.concat (map (fun item =>
                        row_text (with_default (lit ",") (separator o))
                          (structural_values item)) data).
Proof.
  intros Hcols. open_stringify.
  destruct (includes (with_default (lit ",") (separator o)) QUOTE
            || includes (with_default (lit ",") (separator o)) CRLF);
    [discriminate|].
  rewrite Hcols. cbn [map List.length Nat.ltb Nat.leb].
  rewrite andb_false_r, stringify_items_structural.
  destruct (forallb structural_record data); [|discriminate].
  intros H. injection H as <-. split; [reflexivity|].
  destruct (with_default false (bom o)); reflexivity.
Qed.

Lemma stringify_structural_witness :
  forallb structural_record [VArr [VNum 1; VNum 2]; VStr (lit "x"); VArr []] =
    true /\
  BYTE_ORDER_MARK ++ lit "1;2" ++ CRLF ++ lit "x" ++ CRLF ++ CRLF =
    BYTE_ORDER_MARK ++
    List.concat (map (fun item => row_text (lit ";") (structural_values item))
                   [VArr [VNum 1; VNum 2]; VStr (lit "x"); VArr []]).
Proof.
  exact (stringify_structural [VArr [VNum 1; VNum 2]; VStr (lit "x"); VArr []]
           {| headers := None; separator := Some (lit ";");
              columns := None; bom := Some true |}
           (BYTE_ORDER_MARK ++ lit "1;2" ++ CRLF ++ lit "x" ++ CRLF ++ CRLF)
           eq_refl eq_refl).
Defined.

(** X6: [getValuesFromItem] throws nothing but two [TypeError]s, and each has
    its own cause: the accessor error only with at least one column, one of
    which reaches an array at a step whose accessor is a string; the
    missing-accessor error only without columns, on a record that is not an
    array and that [typeof] reports as an object. *)
Theorem getValuesFromItem_errors
  (item : jsvalue) (cols : list NormalizedColumn) (e : JsError) :
  getValuesFromItem item cols = Throw e ->
  (cols <> [] /\ e = TypeError accessor_message /\
   exists c, In c cols /\ accessor_mismatch item (prop c)) \/
  (cols = [] /\ e = TypeError no_accessor_message /\
   structural_record item = false).
Proof.
  destruct cols as [|c cs].
  - rewrite getValuesFromItem_structural.
    destruct (structural_record item); [discriminate|].
    intros H. injection H as <-. right. repeat split.
  - rewrite getValuesFromItem_columns. intros H. left.
    split; [discriminate|]. split.
    + exact (walk_columns_error _ _ _ _ H).
    + exact (walk_columns_throw _ _ _ _ H).
Qed.

Lemma getValuesFromItem_errors_witness :
  (@nil NormalizedColumn <> [] /\
   TypeError no_accessor_message = TypeError accessor_message /\
   exists c, In c [] /\ accessor_mismatch VNull (prop c)) \/
  (@nil NormalizedColumn = [] /\
   TypeError no_accessor_message = TypeError no_accessor_message /\
   structural_record VNull = false).
Proof.
  exact (getValuesFromItem_errors VNull [] (TypeError no_accessor_message)
           eq_refl).
Defined.

(** ** Columns are resolved one by one *)

Lemma walk_columns_app (item : jsvalue) (c1 c2 : list NormalizedColumn)
  (values : list jsvalue) :
  walk_columns item (c1 ++ c2) values =
  (mid <- walk_columns item c1 values ;; walk_columns item c2 mid).
Proof.
  revert values. induction c1 as [|c c1 IH]; intros values; simpl;
    [reflexivity|].
  destruct (walk_props item (prop c)) as [v|e]; simpl; [apply IH | reflexivity].
Qed.

Lemma walk_columns_start (item : jsvalue) (cols : list NormalizedColumn)
  (values : list jsvalue) :
  walk_columns item cols values =
  (vs <- walk_columns item cols [] ;; Ok (values ++ vs)).
Proof.
  revert values. induction cols as [|c cols IH]; intros values; simpl.
  - now rewrite app_nil_r.
  - destruct (walk_props item (prop c)) as [v|e]; simpl; [|reflexivity].
    rewrite (IH (values ++ [v])), (IH [v]).
    destruct (walk_columns item cols []) as [vs|e]; simpl; [|reflexivity].
    now rewrite <- app_assoc.
Qed.

(** X7: the values of a record for two non-empty lists of columns one after
    the other are its values for the first list followed by its values for
    the second; a column is resolved from the record alone, whatever the
    other columns are. *)
Theorem getValuesFromItem_columns_app
  (item : jsvalue) (c1 c2 : list NormalizedColumn) :
  c1 <> [] -> c2 <> [] ->
  getValuesFromItem item (c1 ++ c2) =
  (v1 <- getValuesFromItem item c1 ;;
   v2 <- getValuesFromItem item c2 ;;
   Ok (v1 ++ v2)).
Proof.
  intros H1 H2.
  destruct c1 as [|a c1]; [congruence|]. destruct c2 as [|b c2]; [congruence|].
  rewrite <- app_comm_cons, !getValuesFromItem_columns, app_comm_cons.
  rewrite walk_columns_app.
  destruct (walk_columns item (a :: c1) []) as [v1|e]; [|reflexivity].
  cbn [bind]. apply walk_columns_start.
Qed.

Lemma getValuesFromItem_columns_app_witness :
  getValuesFromItem (character 70 (lit "Rick") (lit "Sanchez"))
    (map normalizeColumn example_columns) =
    Ok ([VStr (lit "Rick")] ++ [VNum 70]).
Proof.
  apply (getValuesFromItem_columns_app
           (character 70 (lit "Rick") (lit "Sanchez"))
           [normalizeColumn (ColPath [PStr (lit "name"); PStr (lit "first")])]
           [normalizeColumn (ColProp (PStr (lit "age")))]);
    discriminate.
Defined.

(** ** Fields can be told apart and keep quotes balanced *)

Lemma double_quotes_cons (c : N) (s : jsstring) :
  double_quotes (c :: s) =
  (if N.eqb c 34 then [34%N; 34%N] else [c]) ++ double_quotes s.
Proof. reflexivity. Qed.

Lemma double_quotes_inj (s1 s2 : jsstring) :
  double_quotes s1 = double_quotes s2 -> s1 = s2.
Proof.
  revert s2. induction s1 as [|c s1 IH]; intros [|d s2];
    rewrite ?double_quotes_cons.
  - reflexivity.
  - destruct (N.eqb d 34); discriminate.
  - destruct (N.eqb c 34); discriminate.
  - destruct (N.eqb_spec c 34) as [->|Hc], (N.eqb_spec d 34) as [->|Hd];
      simpl; intros H.
    + injection H as H. f_equal. now apply IH.
    + injection H as H _. congruence.
    + injection H as H _. congruence.
    + injection H as -> H. f_equal. now apply IH.
Qed.

Lemma getEscapedString_string (s sep : jsstring) :
  getEscapedString (VStr s) sep =
  if includes s sep || includes s LF || includes s QUOTE
  then QUOTE ++ double_quotes s ++ QUOTE else s.
Proof. now rewrite getEscapedString_cases. Qed.

Lemma quoted_has_quote (body s : jsstring) :
  QUOTE ++ body = s -> includes s QUOTE = true.
Proof. intros <-. apply includes_occurs. now exists [], body. Qed.

(** X8: for a given separator, two different strings never get the same
    field text: the escaper is injective on strings. *)
Theorem getEscapedString_string_injective (s1 s2 sep : jsstring) :
  getEscapedString (VStr s1) sep = getEscapedString (VStr s2) sep -> s1 = s2.
Proof.
  rewrite !getEscapedString_string.
  destruct (includes s1 sep || includes s1 LF || includes s1 QUOTE) eqn:E1;
    destruct (includes s2 sep || includes s2 LF || includes s2 QUOTE) eqn:E2;
    intros H.
  - apply app_inv_head, app_inv_tail in H. now apply double_quotes_inj.
  - apply quoted_has_quote in H. rewrite H, !orb_true_r in E2. discriminate.
  - symmetry in H. apply quoted_has_quote in H.
    rewrite H, !orb_true_r in E1. discriminate.
  - exact H.
Qed.

Lemma getEscapedString_string_injective_witness :
  lit "a,b" = lit "a,b".
Proof.
  exact (getEscapedString_string_injective (lit "a,b") (lit "a,b") (lit ",")
           eq_refl).
Defined.

Lemma count_quotes_app (a b : jsstring) :
  count_quotes (a ++ b) = count_quotes a + count_quotes b.
Proof. apply count_occ_app. Qed.

Lemma count_quotes_double (s : jsstring) :
  count_quotes (double_quotes s) = 2 * count_quotes s.
Proof.
  induction s as [|c s IH]; [reflexivity|].
  rewrite double_quotes_cons, count_quotes_app, IH.
  unfold count_quotes. simpl.
  destruct (N.eqb_spec c 34) as [->|Hc]; simpl.
  - lia.
  - destruct (N.eq_dec c 34); [congruence | lia].
Qed.

Lemma count_quotes_free (s : jsstring) :
  includes s QUOTE = false -> count_quotes s = 0.
Proof.
  intros H. apply count_occ_not_In. intros Hin.
  apply includes_unit in Hin. unfold QUOTE in H. congruence.
Qed.

Lemma even_double (n : nat) : Nat.even (2 * n) = true.
Proof. apply Nat.even_spec. now exists n. Qed.

Lemma escaped_quote_count (v : jsvalue) (sep : jsstring) :
  Nat.even (count_quotes (getEscapedString v sep)) = true /\
  count_quotes (getEscapedString v sep) =
    if is_absent v then 0
    else if includes (value_text v) sep || includes (value_text v) LF
            || includes (value_text v) QUOTE
         then 2 + 2 * count_quotes (value_text v)
         else 0.
Proof.
  rewrite getEscapedString_cases. destruct (is_absent v); [now split|].
  destruct (includes (value_text v) sep || includes (value_text v) LF) eqn:E1;
    cbn [orb].
  - rewrite !count_quotes_app, count_quotes_double.
    change (count_quotes QUOTE) with 1.
    replace (1 + (2 * count_quotes (value_text v) + 1))
      with (2 * (1 + count_quotes (value_text v))) by lia.
    split; [apply even_double | lia].
  - destruct (includes (value_text v) QUOTE) eqn:E2.
    + rewrite !count_quotes_app, count_quotes_double.
      change (count_quotes QUOTE) with 1.
      replace (1 + (2 * count_quotes (value_text v) + 1))
        with (2 * (1 + count_quotes (value_text v))) by lia.
      split; [apply even_double | lia].
    + rewrite (count_quotes_free _ E2). now split.
Qed.

(** X9: every field the escaper writes holds an even number of
    double-quotes: none when the text is left as it is, and otherwise the two
    that wrap it and two for each double-quote of the text. *)
Theorem getEscapedString_even_quotes (v : jsvalue) (sep : jsstring) :
  Nat.even (count_quotes (getEscapedString v sep)) = true /\
  count_quotes (getEscapedString v sep) =
    if is_absent v then 0
    else if includes (value_text v) sep || includes (value_text v) LF
            || includes (value_text v) QUOTE
         then 2 + 2 * count_quotes (value_text v)
         else 0.
Proof. exact (escaped_quote_count v sep). Qed.

Lemma even_quotes_app (a b : jsstring) :
  Nat.even (count_quotes a) = true -> Nat.even (count_quotes b) = true ->
  Nat.even (count_quotes (a ++ b)) = true.
Proof.
  intros Ha Hb. now rewrite count_quotes_app, Nat.even_add, Ha, Hb.
Qed.

Lemma even_quotes_join (sep : jsstring) (parts : list jsstring) :
  count_quotes sep = 0 ->
  Forall (fun p => Nat.even (count_quotes p) = true) parts ->
  Nat.even (count_quotes (join sep parts)) = true.
Proof.
  intros Hsep. induction 1 as [|p parts Hp _ IH]; [reflexivity|].
  destruct parts as [|q parts]; [exact Hp|].
  change (join sep (p :: q :: parts)) with (p ++ sep ++ join sep (q :: parts)).
  apply even_quotes_app; [exact Hp|].
  apply even_quotes_app; [now rewrite Hsep | exact IH].
Qed.

Lemma even_quotes_row (sep : jsstring) (values : list jsvalue) :
  count_quotes sep = 0 ->
  Nat.even (count_quotes
              (join sep (map (fun value => getEscapedString value sep) values)))
    = true.
Proof.
  intros Hsep. apply even_quotes_join; [exact Hsep|].
  apply Forall_map, Forall_forall. intros v _.
  apply escaped_quote_count.
Qed.

Lemma stringify_items_even_quotes (sep : jsstring)
  (cols : list NormalizedColumn) (data : list jsvalue) (out r : jsstring) :
  count_quotes sep = 0 ->
  Nat.even (count_quotes out) = true ->
  stringify_items sep cols data out = Ok r ->
  Nat.even (count_quotes r) = true.
Proof.
  intros Hsep. revert out. induction data as [|item data IH]; intros out Hout;
    simpl.
  - intros H. now injection H as <-.
  - destruct (getValuesFromItem item cols) as [values|e]; simpl; [|discriminate].
    apply IH. apply even_quotes_app; [|reflexivity].
    apply even_quotes_app; [exact Hout | now apply even_quotes_row].
Qed.

(** X10: an output of [stringify] holds an even number of double-quotes: the
    separator has none, and every field of the header line and of the rows
    has its quotes in pairs, so each line terminator CRLF that ends a line
    comes after an even number of double-quotes. *)
Theorem stringify_even_quotes
  (data : list jsvalue) (o : StringifyOptions) (out : jsstring) :
  stringify data (Some o) = Ok out ->
  Nat.even (count_quotes out) = true.
Proof.
  open_stringify.
  destruct (includes (with_default (lit ",") (separator o)) QUOTE) eqn:Eq;
    [discriminate|].
  destruct (includes (with_default (lit ",") (separator o)) CRLF);
    [discriminate|].
  cbn [orb]. pose proof (count_quotes_free _ Eq) as Hsep.
  apply stringify_items_even_quotes; [exact Hsep|].
  assert (Hbom : Nat.even (count_quotes
                   (if with_default false (bom o)
                    then [] ++ BYTE_ORDER_MARK else [])) = true).
  { destruct (with_default false (bom o)); reflexivity. }
  destruct (with_default true (headers o)
            && (0 <? List.length
                       (map normalizeColumn (with_default [] (columns o)))));
    [|exact Hbom].
  apply even_quotes_app; [|reflexivity].
  apply even_quotes_app; [exact Hbom|].
  apply even_quotes_join; [exact Hsep|].
  apply Forall_map, Forall_forall. intros c _.
  apply escaped_quote_count.
Qed.

Lemma stringify_even_quotes_witness :
  Nat.even (count_quotes (lit "a," ++ QUOTE ++ lit "b,c" ++ QUOTE ++ CRLF)) = true.
Proof.
  exact (stringify_even_quotes [VArr [VStr (lit "a"); VStr (lit "b,c")]]
           no_options _ eq_refl).
Defined.

(** ** filterValues *)

Lemma jsstring_eqb_eq (a b : jsstring) : jsstring_eqb a b = true <-> a = b.
Proof.
  unfold jsstring_eqb. destruct (list_eq_dec N.eq_dec a b); split;
    congruence.
Qed.

Section FilterValues.

Context {T : Type}.
Variable proto_accessor : bool.

Lemma record_put_fresh (ret : list (jsstring * T)) (key : jsstring) (value : T) :
  ~ In key (map fst ret) -> record_put ret key value = ret ++ [(key, value)].
Proof.
  induction ret as [|[k v] ret IH]; simpl; intros Hk; [reflexivity|].
  destruct (jsstring_eqb k key) eqn:E.
  - apply jsstring_eqb_eq in E. tauto.
  - rewrite IH; tauto.
Qed.

Lemma record_put_In (ret : list (jsstring * T)) (key : jsstring) (value : T)
  (kv : jsstring * T) :
  In kv (record_put ret key value) -> In kv ret \/ kv = (key, value).
Proof.
  induction ret as [|[k v] ret IH]; simpl.
  - intros [<-|[]]. now right.
  - destruct (jsstring_eqb k key) eqn:E.
    + apply jsstring_eqb_eq in E. subst k. simpl.
      intros [<-|H]; [now right | left; now right].
    + simpl. intros [<-|H]; [left; now left|].
      destruct (IH H) as [H'|H']; [left; now right | now right].
Qed.

Lemma filterValues_loop_filter (predicate : T -> bool)
  (entries ret : list (jsstring * T)) :
  NoDup (map fst ret ++ map fst entries) ->
  filterValues_loop proto_accessor predicate entries ret =
  ret ++ filter (kept proto_accessor predicate) entries.
Proof.
  revert ret. induction entries as [|[key value] entries IH]; intros ret Hnd.
  - simpl. now rewrite app_nil_r.
  - cbn [filterValues_loop filter map] in *. unfold kept at 1. cbn [fst snd].
    pose proof (NoDup_remove_1 _ _ _ Hnd) as Hrest.
    pose proof (NoDup_remove_2 _ _ _ Hnd) as Hfresh.
    destruct (predicate value); cbn [andb]; [|now apply IH].
    unfold record_assign.
    destruct (proto_accessor && jsstring_eqb key PROTO); cbn [negb];
      [now apply IH|].
    rewrite record_put_fresh.
    + rewrite IH; [now rewrite <- app_assoc|].
      now rewrite map_app, <- app_assoc.
    + intros Hin. apply Hfresh, in_or_app. now left.
Qed.

Lemma filterValues_loop_In (predicate : T -> bool)
  (entries ret : list (jsstring * T)) (kv : jsstring * T) :
  In kv (filterValues_loop proto_accessor predicate entries ret) ->
  In kv ret \/ (In kv entries /\ kept proto_accessor predicate kv = true).
Proof.
  revert ret. induction entries as [|[key value] entries IH]; intros ret;
    [now left|].
  cbn [filterValues_loop]. intros H. apply IH in H.
  destruct H as [H | [H Hk]]; [|right; split; [now right | exact Hk]].
  destruct (predicate value) eqn:Ep; [|now left].
  unfold record_assign in H.
  destruct (proto_accessor && jsstring_eqb key PROTO) eqn:Epr; [now left|].
  apply record_put_In in H. destruct H as [H | ->]; [now left|].
  right. split; [now left|]. unfold kept. cbn [fst snd]. now rewrite Ep, Epr.
Qed.

Lemma record_get_absent (record : list (jsstring * T)) (key : jsstring) :
  ~ In key (map fst record) -> record_get record key = None.
Proof.
  induction record as [|[k v] record IH]; simpl; intros Hk; [reflexivity|].
  destruct (jsstring_eqb k key) eqn:E.
  - apply jsstring_eqb_eq in E. tauto.
  - apply IH. tauto.
Qed.

Lemma filter_keys_incl (f : jsstring * T -> bool) (record : list (jsstring * T))
  (key : jsstring) :
  In key (map fst (filter f record)) -> In key (map fst record).
Proof.
  intros H. apply in_map_iff in H. destruct H as [kv [<- H]].
  apply filter_In in H. apply in_map. tauto.
Qed.

Lemma filter_keys_NoDup (f : jsstring * T -> bool)
  (record : list (jsstring * T)) :
  NoDup (map fst record) -> NoDup (map fst (filter f record)).
Proof.
  induction record as [|[k v] record IH]; simpl; intros H; [constructor|].
  inversion H as [|? ? Hk Hrest]; subst.
  destruct (f (k, v)); simpl; [|now apply IH].
  constructor; [|now apply IH].
  intros Hin. apply Hk. now apply filter_keys_incl in Hin.
Qed.

Lemma record_get_filter (f : jsstring * T -> bool)
  (record : list (jsstring * T)) (key : jsstring) :
  NoDup (map fst record) ->
  record_get (filter f record) key =
  match record_get record key with
  | Some v => if f (key, v) then Some v else None
  | None => None
  end.
Proof.
  induction record as [|[k v] record IH]; simpl; intros H; [reflexivity|].
  inversion H as [|? ? Hk Hrest]; subst.
  destruct (jsstring_eqb k key) eqn:E.
  - apply jsstring_eqb_eq in E. subst k.
    destruct (f (key, v)); simpl.
    + destruct (jsstring_eqb key key) eqn:E'; [reflexivity|].
      assert (jsstring_eqb key key = true) by now apply jsstring_eqb_eq.
      congruence.
    + apply record_get_absent. intros Hin. apply Hk.
      now apply filter_keys_incl in Hin.
  - destruct (f (k, v)); simpl; [rewrite E|]; now apply IH.
Qed.

Lemma filterValues_as_filter (record : list (jsstring * T)) (predicate : T -> bool) :
  NoDup (map fst record) ->
  filterValues proto_accessor record predicate =
  filter (kept proto_accessor predicate) record.
Proof.
  intros H. unfold filterValues. now rewrite filterValues_loop_filter.
Qed.

(** X11: on a record (each key once), [filterValues] returns the entries whose
    value passes the predicate, in the order of the record.  On a host whose
    [Object.prototype] has the [__proto__] accessor, an entry named
    [__proto__] is never among them. *)
Theorem filterValues_filter (record : list (jsstring * T)) (predicate : T -> bool) :
  NoDup (map fst record) ->
  filterValues proto_accessor record predicate =
  filter (kept proto_accessor predicate) record.
Proof. exact (filterValues_as_filter record predicate). Qed.

(** X12: every entry of the record [filterValues] returns is an entry of the
    given record, and its value passes the predicate. *)
Theorem filterValues_sound (record : list (jsstring * T)) (predicate : T -> bool)
  (key : jsstring) (value : T) :
  In (key, value) (filterValues proto_accessor record predicate) ->
  In (key, value) record /\ predicate value = true.
Proof.
  intros H. apply filterValues_loop_In in H. destruct H as [[] | [Hin Hk]].
  split; [exact Hin|]. unfold kept in Hk. cbn [fst snd] in Hk.
  now apply andb_true_iff in Hk.
Qed.

(** X13: looking a key up in the result of [filterValues] gives the value the
    record has for that key when this value passes the predicate (and the key
    is not a [__proto__] the host diverts), and nothing otherwise. *)
Theorem filterValues_lookup (record : list (jsstring * T)) (predicate : T -> bool)
  (key : jsstring) :
  NoDup (map fst record) ->
  record_get (filterValues proto_accessor record predicate) key =
  match record_get record key with
  | Some v => if kept proto_accessor predicate (key, v) then Some v else None
  | None => None
  end.
Proof.
  intros H. rewrite (filterValues_as_filter _ _ H). now apply record_get_filter.
Qed.

Lemma kept_both (p q : T -> bool) (kv : jsstring * T) :
  kept proto_accessor (fun v => p v && q v) kv =
  kept proto_accessor p kv && kept proto_accessor q kv.
Proof.
  unfold kept. destruct (p (snd kv)), (q (snd kv)),
    (negb (proto_accessor && jsstring_eqb (fst kv) PROTO)); reflexivity.
Qed.

Lemma filter_kept_both (p q : T -> bool) (record : list (jsstring * T)) :
  filter (kept proto_accessor q) (filter (kept proto_accessor p) record) =
  filter (kept proto_accessor (fun v => p v && q v)) record.
Proof.
  induction record as [|kv record IH]; [reflexivity|].
  cbn [filter]. rewrite kept_both.
  destruct (kept proto_accessor p kv); cbn [andb filter]; [|exact IH].
  destruct (kept proto_accessor q kv); now rewrite IH.
Qed.

(** X14: filtering the result of [filterValues] by a second predicate is
    filtering the record once by both predicates; hence filtering twice by the
    same predicate changes nothing, and two predicates can be applied in
    either order. *)
Theorem filterValues_compose (record : list (jsstring * T)) (p q : T -> bool) :
  NoDup (map fst record) ->
  filterValues proto_accessor (filterValues proto_accessor record p) q =
    filterValues proto_accessor record (fun v => p v && q v) /\
  filterValues proto_accessor (filterValues proto_accessor record p) p =
    filterValues proto_accessor record p /\
  filterValues proto_accessor (filterValues proto_accessor record p) q =
    filterValues proto_accessor (filterValues proto_accessor record q) p.
Proof.
  intros H.
  assert (Hpq : forall a b,
             filterValues proto_accessor (filterValues proto_accessor record a) b =
             filter (kept proto_accessor (fun v => a v && b v)) record).
  { intros a b. rewrite (filterValues_as_filter record a H).
    rewrite filterValues_as_filter by now apply filter_keys_NoDup.
    apply filter_kept_both. }
  split; [|split].
  - rewrite Hpq. symmetry. now apply filterValues_as_filter.
  - rewrite Hpq, (filterValues_as_filter record p H).
    apply filter_ext. intros [k v]. unfold kept. cbn [fst snd].
    now destruct (p v).
  - rewrite !Hpq. apply filter_ext. intros [k v]. unfold kept. cbn [fst snd].
    now rewrite (andb_comm (p v) (q v)).
Qed.

End FilterValues.

Example filterValues_adults :
  filterValues true people (fun it => (18 <=? it)%Z) =
    [ (lit "Arnold", 37%Z); (lit "Kim", 23%Z) ].
Proof. reflexivity. Qed.

Example filterValues_proto_key :
  filterValues true [(PROTO, 1%Z); (lit "a", 2%Z)] (fun _ => true) =
    [(lit "a", 2%Z)] /\
  filterValues false [(PROTO, 1%Z); (lit "a", 2%Z)] (fun _ => true) =
    [(PROTO, 1%Z); (lit "a", 2%Z)].
Proof. split; reflexivity. Qed.

Lemma filterValues_filter_witness :
  filterValues true people (fun it => (18 <=? it)%Z) =
  filter (kept true (fun it => (18 <=? it)%Z)) people.
Proof.
  apply (filterValues_filter true people (fun it => (18 <=? it)%Z)).
  repeat constructor; intros H; vm_compute in H; intuition discriminate.
Defined.

Lemma filterValues_sound_witness :
  In (lit "Kim", 23%Z) people /\ (18 <=? 23)%Z = true.
Proof.
  apply (filterValues_sound true people (fun it => (18 <=? it)%Z)).
  right. left. reflexivity.
Defined.

Lemma filterValues_lookup_witness :
  record_get (filterValues true people (fun it => (18 <=? it)%Z)) (lit "Sarah") =
  match record_get people (lit "Sarah") with
  | Some v =>
      if kept true (fun it => (18 <=? it)%Z) (lit "Sarah", v) then Some v
      else None
  | None => None
  end.
Proof.
  apply (filterValues_lookup true people (fun it => (18 <=? it)%Z)).
  repeat constructor; intros H; vm_compute in H; intuition discriminate.
Defined.

Lemma filterValues_compose_witness :
  filterValues true (filterValues true people (fun it => (18 <=? it)%Z))
    (fun it => (it <? 30)%Z) =
  filterValues true people (fun it => (18 <=? it)%Z && (it <? 30)%Z).
Proof.
  refine (proj1 (filterValues_compose true people (fun it => (18 <=? it)%Z)
                   (fun it => (it <? 30)%Z) _)).
  repeat constructor; intros H; vm_compute in H; intuition discriminate.
Defined.

(** ** Index columns on array records *)

Lemma walk_columns_indices (xs : list jsvalue) (n a : nat) (values : list jsvalue) :
  walk_columns (VArr xs)
    (map (fun i => normalizeColumn (ColProp (PNum (Z.of_nat i)))) (seq a n))
    values =
  Ok (values ++ map (fun i => array_get xs (Z.of_nat i)) (seq a n)).
Proof.
  revert a values. induction n as [|n IH]; intros a values; simpl.
  - now rewrite app_nil_r.
  - rewrite IH. now rewrite <- app_assoc.
Qed.

Lemma array_get_all (xs : list jsvalue) :
  map (fun i => array_get xs (Z.of_nat i)) (seq 0 (List.length xs)) = xs.
Proof.
  apply nth_ext with (d := array_get xs (Z.of_nat 0)) (d' := VUndefined).
  - now rewrite length_map, length_seq.
  - intros n Hn. rewrite length_map, length_seq in Hn.
    rewrite (map_nth (fun i => array_get xs (Z.of_nat i))), seq_nth by exact Hn.
    unfold array_get. simpl (0 + n).
    destruct (Z.ltb_spec (Z.of_nat n) 0); [lia|]. now rewrite Nat2Z.id.
Qed.

(** X15: for an array record, the index columns [0], ..., [n - 1] give the
    elements at these indices, [undefined] beyond the end of the array; with
    as many index columns as the array has elements, the values are those the
    record gives without any column. *)
Theorem getValuesFromItem_index_columns (xs : list jsvalue) (n : nat) :
  getValuesFromItem (VArr xs) (index_columns (S n)) =
    Ok (map (fun i => array_get xs (Z.of_nat i)) (seq 0 (S n))) /\
  getValuesFromItem (VArr xs) (index_columns (List.length xs)) =
    getValuesFromItem (VArr xs) [].
Proof.
  split.
  - unfold index_columns. cbn [seq map]. rewrite getValuesFromItem_columns.
    exact (walk_columns_indices xs (S n) 0 []).
  - destruct xs as [|x xs]; [reflexivity|].
    transitivity
      (Ok ([] ++ map (fun i => array_get (x :: xs) (Z.of_nat i))
                   (seq 0 (List.length (x :: xs))))).
    + exact (walk_columns_indices (x :: xs) (S (List.length xs)) 0 []).
    + now rewrite (array_get_all (x :: xs)).
Qed.

(** ** Inherited members and numbers that are not finite *)

Example walk_props_constructor :
  stringify [VObj []]
    (Some {| headers := Some false; separator := None;
             columns := Some [ColProp (PStr (lit "constructor"))];
             bom := None |}) =
    Ok (lit "function Object() { [native code] }" ++ CRLF).
Proof. vm_compute. reflexivity. Qed.

Example walk_props_own_before_inherited :
  walk_props (VObj [(lit "toString", VNum 1)]) [PStr (lit "toString")] =
    Ok (VNum 1).
Proof. reflexivity. Qed.

Example stringify_nonfinite_values :
  stringify [VArr [VNonFinite NegInfinity; VArr [VNonFinite NaN; VNum 2]]] None =
    Ok (lit "-Infinity," ++ QUOTE ++ lit "[null,2]" ++ QUOTE ++ CRLF).
Proof. vm_compute. reflexivity. Qed.
